(** * Conflict-Model: the production / trade loop of [conflict_model.ipynb]

    A shallow embedding of the resource-flow simulation of the notebook
    (the cell under heading 7, Simple Resource-Flow Simulation): [produce_food],
    [trade_food] and the loop of [simulate_economy], over a model of the
    NetworkX graph the notebook builds.

    - Numbers.  The notebook's quantities (100 units of food, a production
      of 10, a threshold of 100, a cap of 20) are Python integers, which
      are unbounded; they are modelled by [Z].  Coordinates and distances
      are only carried around by the simulation, never computed on; they
      are kept as rationals.
    - Dictionaries.  [G.nodes], each node's [resources] and the local
      [food_flows] are finite maps with string keys.  A subscript on a
      missing key raises [KeyError]: the functions return an [option] and
      [None] stands for the exception.  Every node owns its [resources]
      dictionary, as in the notebook, where [resources={"food": 100}]
      builds a fresh one for each node.
    - Loops.  A [for] over a dictionary is a [map_fold] whose accumulator
      is the dictionary being updated; the body reads and writes only the
      entry of the key it visits, so the result does not depend on the
      order of the visit ([node_fold_spec]).  The loop over [G.edges()]
      is a left fold over the list of edges in the order NetworkX yields
      them. *)

From Stdlib Require Import QArith Qabs.
From stdpp Require Import gmap strings list fin_maps sorting pretty.

Local Open Scope string_scope.
Local Open Scope Z_scope.

(** ** Data model *)

(** A node of [G] with the attributes given to [G.add_node]:
    [pos=(lon, lat)], [country], [blocked] and the [resources] dictionary. *)
Record Settlement := mkSettlement {
  pos : Q * Q;
  country : string;
  blocked : bool;
  resources : gmap string Z
}.

(** The attributes given to [G.add_edge]. *)
Record TradeLink := mkTradeLink {
  distance : Q;
  capacity : Z
}.

(** The graph: [G.nodes] is a dictionary from city name to attributes;
    [edges] lists the pairs in the order in which [G.edges()] yields them. *)
Record Graph := mkGraph {
  nodes : gmap string Settlement;
  edges : list (string * string * TradeLink)
}.

Definition set_resources (r : gmap string Z) (n : Settlement) : Settlement :=
  {| pos := pos n; country := country n; blocked := blocked n; resources := r |}.

Definition set_nodes (ns : gmap string Settlement) (G : Graph) : Graph :=
  {| nodes := ns; edges := edges G |}.

Definition set_edges (es : list (string * string * TradeLink)) (G : Graph) : Graph :=
  {| nodes := nodes G; edges := es |}.

(** ** Dictionary accesses

    A subscript on a missing key raises [KeyError]; the exception is the
    [None] of the option monad. *)

(** [n["resources"]["food"]] *)
Definition food (n : Settlement) : option Z := resources n !! "food".

(** [n["resources"]["food"] += x] *)
Definition add_food (x : Z) (n : Settlement) : option Settlement :=
  f ← food n; Some (set_resources (<["food" := f + x]> (resources n)) n).

(** [food_flows[city] += x] and [food_flows[city] -= x] *)
Definition flow_add (city : string) (x : Z) (food_flows : gmap string Z)
  : option (gmap string Z) :=
  v ← food_flows !! city; Some (<[city := v + x]> food_flows).

Definition flow_sub (city : string) (x : Z) (food_flows : gmap string Z)
  : option (gmap string Z) :=
  v ← food_flows !! city; Some (<[city := v - x]> food_flows).

(** Python's three-argument [min]. *)
Definition min3 (a b c : Z) : Z := Z.min (Z.min a b) c.

(** ** [produce_food] *)

(** The body of [for city in G.nodes], on the node dictionary as it is
    when the iteration reaches [city]. *)
Definition produce_city (production_amount : Z) (city : string)
    (ns : gmap string Settlement) : option (gmap string Settlement) :=
  n ← ns !! city;
  if blocked n then Some ns
  else n' ← add_food production_amount n; Some (<[city := n']> ns).

Definition produce_food (G : Graph) (production_amount : Z) : option Graph :=
  ns ← map_fold (λ city _ acc, acc ≫= produce_city production_amount city)
        (Some (nodes G)) (nodes G);
  Some (set_nodes ns G).

(** ** [trade_food] *)

(** The body of [for cityA, cityB in G.edges()].  The graph is only read
    here; the flows go to the accumulator [food_flows]. *)
Definition trade_edge (G : Graph) (trade_threshold max_trade_per_edge : Z)
    (food_flows : gmap string Z) (e : string * string * TradeLink)
  : option (gmap string Z) :=
  let '(cityA, cityB, _) := e in
  nA ← nodes G !! cityA;
  if blocked nA then Some food_flows else
  nB ← nodes G !! cityB;
  if blocked nB then Some food_flows else
  foodA ← food nA;
  foodB ← food nB;
  if (trade_threshold <? foodA) && (foodB <? trade_threshold) then
    let surplusA := foodA - trade_threshold in
    let deficitB := trade_threshold - foodB in
    let flowAB := min3 surplusA deficitB max_trade_per_edge in
    flow_sub cityA flowAB food_flows ≫= flow_add cityB flowAB
  else if (trade_threshold <? foodB) && (foodA <? trade_threshold) then
    let surplusB := foodB - trade_threshold in
    let deficitA := trade_threshold - foodA in
    let flowBA := min3 surplusB deficitA max_trade_per_edge in
    flow_sub cityB flowBA food_flows ≫= flow_add cityA flowBA
  else Some food_flows.

(** The whole loop over the edges. *)
Definition trade_loop (G : Graph) (trade_threshold max_trade_per_edge : Z)
    (es : list (string * string * TradeLink)) (food_flows : gmap string Z)
  : option (gmap string Z) :=
  foldl (λ acc e, acc ≫= λ ff, trade_edge G trade_threshold max_trade_per_edge ff e)
        (Some food_flows) es.

(** The body of [for city in food_flows]. *)
Definition apply_flow (city : string) (flow : Z)
    (ns : gmap string Settlement) : option (gmap string Settlement) :=
  n ← ns !! city;
  n' ← add_food flow n;
  Some (<[city := n']> ns).

Definition apply_flows (ns : gmap string Settlement) (food_flows : gmap string Z)
  : option (gmap string Settlement) :=
  map_fold (λ city flow acc, acc ≫= apply_flow city flow) (Some ns) food_flows.

Definition trade_food (G : Graph) (trade_threshold max_trade_per_edge : Z)
  : option Graph :=
  let food_flows := (λ _ : Settlement, 0) <$> nodes G in
  ff ← trade_loop G trade_threshold max_trade_per_edge (edges G) food_flows;
  ns ← apply_flows (nodes G) ff;
  Some (set_nodes ns G).

(** ** [simulate_economy] *)

(** One turn, the body of the loop of [simulate_economy]: production, then
    trade.  The three quantities are arguments here; the notebook passes
    literals. *)
Definition economy_step (production_amount trade_threshold max_trade_per_edge : Z)
    (G : Graph) : option Graph :=
  produce_food G production_amount ≫= λ G1,
  trade_food G1 trade_threshold max_trade_per_edge.

(** [for step in range(1, steps+1)] *)
Fixpoint run (steps : nat) (production_amount trade_threshold max_trade_per_edge : Z)
    (G : Graph) : option Graph :=
  match steps with
  | O => Some G
  | S k =>
      economy_step production_amount trade_threshold max_trade_per_edge G
        ≫= run k production_amount trade_threshold max_trade_per_edge
  end.

(** [simulate_economy] calls the two functions with the literals 10, 100
    and 20; the printed summary has no effect on the graph. *)
Definition simulate_economy (G : Graph) (steps : nat) : option Graph :=
  run steps 10 100 20 G.

(** * Definitions used to state the properties *)

(** ** Observations on a graph *)

(** The food of the settlement named [c]. *)
Definition stock (G : Graph) (c : string) : option Z :=
  nodes G !! c ≫= food.

Definition is_blocked (G : Graph) (c : string) : bool :=
  match nodes G !! c with
  | Some n => blocked n
  | None => false
  end.

(** Every node carries a food entry. *)
Definition all_fed (ns : gmap string Settlement) : bool :=
  bool_decide (map_Forall (λ _ n, is_Some (food n)) ns).

(** Well-formed graphs: what [G.add_node] and [G.add_edge] establish in
    the notebook.  Every node has a ["food"] entry and the endpoints of
    every edge are nodes. *)
Definition graph_wf (G : Graph) : bool :=
  all_fed (nodes G)
  && forallb (λ e, bool_decide (is_Some (nodes G !! e.1.1))
                   && bool_decide (is_Some (nodes G !! e.1.2))) (edges G).

Definition food_nonneg (G : Graph) : bool :=
  bool_decide (map_Forall (λ _ n, 0 ≤ default 0 (food n)) (nodes G)).

(** [c] is an endpoint of the link [e]. *)
Definition touches (c : string) (e : string * string * TradeLink) : bool :=
  bool_decide (c = e.1.1) || bool_decide (c = e.1.2).

(** Number of entries of the edge list with [c] as an endpoint. *)
Definition degree (es : list (string * string * TradeLink)) (c : string) : Z :=
  Z.of_nat (length (filter (λ e, touches c e = true) es)).

(** Sum of [f] over the entries of a dictionary. *)
Definition map_sum {A} (f : string → A → Z) (m : gmap string A) : Z :=
  map_fold (λ k v acc, f k v + acc) 0 m.

(** Total food held by all settlements. *)
Definition total_food (G : Graph) : Z :=
  map_sum (λ _ n, default 0 (food n)) (nodes G).

(** What the two operations may change in a node: the ["food"] entry of
    [resources], and nothing else. *)
Definition only_food_changed (n n' : Settlement) : Prop :=
  pos n' = pos n ∧ country n' = country n ∧ blocked n' = blocked n ∧
  ∀ r, r ≠ "food" → resources n' !! r = resources n !! r.

(** Same edges with the same attributes, same set of nodes, and in every
    node only the food may differ. *)
Definition same_frame (G G' : Graph) : Prop :=
  edges G' = edges G ∧
  ∀ c, match nodes G !! c, nodes G' !! c with
       | Some n, Some n' => only_food_changed n n'
       | None, None => True
       | _, _ => False
       end.

(** ** What the loops compute *)

(** What [produce_food] does to one node. *)
Definition produce_one (production_amount : Z) (n : Settlement) : option Settlement :=
  if blocked n then Some n else add_food production_amount n.

(** [link_flow] is the quantity that [trade_edge] moves from [cityA] to
    [cityB] (negative when the flow goes from [cityB] to [cityA], zero when
    the link is skipped or neither branch is taken); [link_delta] is what
    the link adds to the accumulator entry of a city, and [net_flow] the
    sum of that over a list of links. *)
Definition link_flow (G : Graph) (T cap : Z) (e : string * string * TradeLink) : Z :=
  match nodes G !! e.1.1, nodes G !! e.1.2 with
  | Some nA, Some nB =>
      if blocked nA || blocked nB then 0 else
      match food nA, food nB with
      | Some foodA, Some foodB =>
          if (T <? foodA) && (foodB <? T) then min3 (foodA - T) (T - foodB) cap
          else if (T <? foodB) && (foodA <? T) then - min3 (foodB - T) (T - foodA) cap
          else 0
      | _, _ => 0
      end
  | _, _ => 0
  end.

Definition link_delta (G : Graph) (T cap : Z) (e : string * string * TradeLink)
    (c : string) : Z :=
  (if decide (c = e.1.2) then link_flow G T cap e else 0)
  - (if decide (c = e.1.1) then link_flow G T cap e else 0).

Definition net_flow (G : Graph) (T cap : Z)
    (es : list (string * string * TradeLink)) (c : string) : Z :=
  foldr (λ e acc, link_delta G T cap e c + acc) 0 es.

(** The lookups that [trade_edge] makes on the graph succeed. *)
Definition edge_ok (G : Graph) (e : string * string * TradeLink) : bool :=
  match nodes G !! e.1.1 with
  | None => false
  | Some nA =>
      blocked nA ||
      match nodes G !! e.1.2 with
      | None => false
      | Some nB => blocked nB || (bool_decide (is_Some (food nA)) && bool_decide (is_Some (food nB)))
      end
  end.

(** The accumulator has an entry for every node, as [food_flows] has. *)
Definition covers (G : Graph) (ff : gmap string Z) : Prop :=
  ∀ c, is_Some (nodes G !! c) → is_Some (ff !! c).

(** What a settlement holding [f] can give on one link: its surplus over
    the threshold, at most the cap. *)
Definition per_link_loss (T cap f : Z) : Z := Z.min (Z.max (f - T) 0) cap.

(** ** Example graphs *)

Definition city (f : Z) (b : bool) : Settlement :=
  {| pos := (0, 0)%Q; country := "Utopia"; blocked := b;
     resources := {["food" := f]} |}.

Definition link : TradeLink := {| distance := 1000%Q; capacity := 10 |}.

(** Two linked settlements, one above and one below the threshold 100. *)
Definition pair_graph : Graph :=
  {| nodes := list_to_map [("A", city 130 false); ("B", city 80 false)];
     edges := [("A", "B", link)] |}.

Definition pair_graph_traded : Graph :=
  {| nodes := list_to_map [("A", city 110 false); ("B", city 100 false)];
     edges := [("A", "B", link)] |}.

(** The same two settlements and a third one, blocked, linked to both. *)
Definition siege_graph : Graph :=
  {| nodes := list_to_map [("A", city 130 false); ("B", city 80 false);
                           ("S", city 40 true)];
     edges := [("A", "B", link); ("A", "S", link); ("S", "B", link)] |}.

(** Every link has both endpoints blocked; a fourth settlement is free. *)
Definition all_blocked_graph : Graph :=
  {| nodes := list_to_map [("A", city 130 true); ("B", city 80 true);
                           ("S", city 40 true); ("F", city 70 false)];
     edges := [("A", "B", link); ("A", "S", link); ("S", "B", link)] |}.

(** One settlement with seven neighbours. *)
Definition star_graph : Graph :=
  {| nodes := list_to_map
       [("Hub", city 110 false); ("L1", city 0 false); ("L2", city 0 false);
        ("L3", city 0 false); ("L4", city 0 false); ("L5", city 0 false);
        ("L6", city 0 false); ("L7", city 0 false)];
     edges := (λ l, ("Hub", l, link)) <$> ["L1"; "L2"; "L3"; "L4"; "L5"; "L6"; "L7"] |}.

(** Three settlements and two links, the link A-B and a link from A or B
    to the third settlement C. *)
Definition fork_straddle : Graph :=
  {| nodes := list_to_map [("A", city 110 false); ("B", city 90 false);
                           ("C", city 90 false)];
     edges := [("A", "B", link); ("A", "C", link)] |}.

Definition fork_below : Graph :=
  {| nodes := list_to_map [("A", city 90 false); ("B", city 90 false);
                           ("C", city 110 false)];
     edges := [("A", "B", link); ("B", "C", link)] |}.

Definition fork_above : Graph :=
  {| nodes := list_to_map [("A", city 110 false); ("B", city 110 false);
                           ("C", city 90 false)];
     edges := [("A", "B", link); ("A", "C", link)] |}.

(** * The rest of the notebook *)

(** ** Building the graph *)

(** A row of [capitals_data]. *)
Record CapitalRow := mkCapitalRow {
  Country : string;
  Capital : string;
  Latitude : Q;
  Longitude : Q
}.

Definition empty_graph : Graph := {| nodes := ∅; edges := [] |}.

(** The attributes of the node made from a row: [pos=(lon, lat)],
    [country=row["Country"]], [blocked=False], [resources={"food": 100}]. *)
Definition capital_node (row : CapitalRow) : Settlement :=
  {| pos := (Longitude row, Latitude row);
     country := Country row;
     blocked := false;
     resources := {["food" := 100]} |}.

(** [G.add_node(capital, ...)]: a new node, or new attributes for the node
    of that name. *)
Definition add_capital (G : Graph) (row : CapitalRow) : Graph :=
  set_nodes (<[Capital row := capital_node row]> (nodes G)) G.

(** [for idx, row in capitals_df.iterrows()] on [G = nx.Graph()] *)
Definition add_capitals (rows : list CapitalRow) : Graph :=
  foldl add_capital empty_graph rows.

(** The names of a list without the repetitions, each at its first
    occurrence: NetworkX keeps a node where it was first added. *)
Fixpoint first_occurrences (names : list string) : list string :=
  match names with
  | [] => []
  | x :: rest => x :: filter (λ y, y ≠ x) (first_occurrences rest)
  end.

(** [list(G.nodes())] for the graph built from [rows]. *)
Definition node_order (rows : list CapitalRow) : list string :=
  first_occurrences (Capital <$> rows).

Definition DISTANCE_THRESHOLD : Q := 3000%Q.

(** The body of the two nested loops, for the cities at [i] and [j].  The
    geodesic distance of geopy is the parameter [distance_km].
    [G.add_edge] appends to the edges: the pair is new, since the names of
    [list(G.nodes())] are distinct and every pair [i < j] is visited once;
    for the same reason [G.edges()] yields the edges in the order of their
    insertion. *)
Definition connect (distance_km : Q → Q → Q → Q → Q) (G : Graph)
    (cityA cityB : string) : option Graph :=
  nA ← nodes G !! cityA;
  nB ← nodes G !! cityB;
  let '(lonA, latA) := pos nA in
  let '(lonB, latB) := pos nB in
  let d_km := distance_km latA lonA latB lonB in
  if Qle_bool d_km DISTANCE_THRESHOLD then
    Some (set_edges (edges G ++ [(cityA, cityB,
                                  {| distance := d_km; capacity := 10 |})])%list G)
  else Some G.

(** [for i in range(len(all_cities)): for j in range(i+1, len(all_cities))] *)
Fixpoint connect_all (distance_km : Q → Q → Q → Q → Q)
    (all_cities : list string) (G : Graph) : option Graph :=
  match all_cities with
  | [] => Some G
  | cityA :: rest =>
      foldl (λ acc cityB, acc ≫= λ G', connect distance_km G' cityA cityB)
            (Some G) rest
        ≫= connect_all distance_km rest
  end.

(** The two construction cells, one after the other. *)
Definition build_graph (distance_km : Q → Q → Q → Q → Q)
    (rows : list CapitalRow) : option Graph :=
  connect_all distance_km (node_order rows) (add_capitals rows).

(** The link that the loop body adds for two nodes, if any, and the links
    it adds over a whole list of names. *)
Definition link_between (distance_km : Q → Q → Q → Q → Q)
    (ns : gmap string Settlement) (a b : string)
  : list (string * string * TradeLink) :=
  match ns !! a, ns !! b with
  | Some nA, Some nB =>
      let d_km := distance_km (pos nA).2 (pos nA).1 (pos nB).2 (pos nB).1 in
      if Qle_bool d_km DISTANCE_THRESHOLD
      then [(a, b, {| distance := d_km; capacity := 10 |})] else []
  | _, _ => []
  end.

Fixpoint all_links (distance_km : Q → Q → Q → Q → Q)
    (ns : gmap string Settlement) (order : list string)
  : list (string * string * TradeLink) :=
  match order with
  | [] => []
  | a :: rest =>
      (flat_map (link_between distance_km ns a) rest
         ++ all_links distance_km ns rest)%list
  end.

(** ** Blocking a city *)

(** [G.nodes[city]["blocked"] = value] *)
Definition set_blocked (G : Graph) (city : string) (value : bool) : option Graph :=
  n ← nodes G !! city;
  Some (set_nodes (<[city := {| pos := pos n; country := country n;
                                blocked := value;
                                resources := resources n |}]> (nodes G)) G).

(** The demonstration cell without its printing: three steps, Berlin is
    blocked, three more steps. *)
Definition demonstration (G : Graph) : option Graph :=
  G1 ← simulate_economy G 3;
  G2 ← set_blocked G1 "Berlin" true;
  simulate_economy G2 3.

(** ** The printed summary *)

(** The order of Python on strings, character by character; on the bytes
    of the UTF-8 encoding, which orders strings as their code points do. *)
Definition str_le (a b : string) : Prop := String.leb a b = true.

Definition str_le_dec (a b : string) : Decision (str_le a b) :=
  decide (String.leb a b = true).

#[global] Existing Instance str_le_dec.

(** [sorted(G.nodes())] *)
Definition sorted_cities (G : Graph) : list string :=
  merge_sort str_le (map_to_list (nodes G)).*1.

(** [f"  {city}{blocked}: food={food_amount:.1f}"]; the rendering of a
    number with one decimal is the parameter [format_1f]. *)
Definition summary_line (format_1f : Z → string) (G : Graph) (city : string)
  : option string :=
  n ← nodes G !! city;
  let blocked_mark := if blocked n then " (BLOCKED)" else EmptyString in
  food_amount ← food n;
  Some ("  " +:+ city +:+ blocked_mark +:+ ": food=" +:+ format_1f food_amount).

(** The lines printed by [for city in sorted(G.nodes())]. *)
Definition summary (format_1f : Z → string) (G : Graph) : option (list string) :=
  mapM (summary_line format_1f G) (sorted_cities G).

(** [simulate_economy] with what it prints, line by line: after each step
    an empty line, the header and the summary.  [step] counts from 1. *)
Fixpoint economy_loop (format_1f : Z → string) (step steps : nat) (G : Graph)
    (out : list string) : option (Graph * list string) :=
  match steps with
  | O => Some (G, out)
  | S k =>
      G1 ← produce_food G 10;
      G2 ← trade_food G1 100 20;
      lines ← summary format_1f G2;
      economy_loop format_1f (S step) k G2
        (out ++ [EmptyString; "After Step " +:+ pretty step +:+ ":"] ++ lines)%list
  end.

Definition simulate_economy_print (format_1f : Z → string) (G : Graph)
    (steps : nat) : option (Graph * list string) :=
  economy_loop format_1f 1 steps G [].

(** ** More observations *)

(** Number of unblocked settlements. *)
Definition unblocked_count (G : Graph) : Z :=
  map_sum (λ _ n, if blocked n then 0 else 1) (nodes G).

(** The link seen from its other end. *)
Definition flip_link (e : string * string * TradeLink) : string * string * TradeLink :=
  (e.1.2, e.1.1, e.2).

(** What a settlement holding [f] can receive on one link: its deficit
    under the threshold, at most the cap. *)
Definition per_link_gain (T cap f : Z) : Z := Z.min (Z.max (T - f) 0) cap.

(** The link joins an unblocked settlement above the threshold to an
    unblocked settlement below it. *)
Definition straddles (G : Graph) (T : Z) (e : string * string * TradeLink) : Prop :=
  ∃ nA nB fA fB,
    nodes G !! e.1.1 = Some nA ∧ nodes G !! e.1.2 = Some nB ∧
    blocked nA = false ∧ blocked nB = false ∧
    food nA = Some fA ∧ food nB = Some fB ∧
    ((T < fA ∧ fB < T) ∨ (T < fB ∧ fA < T)).

(** ** More example data *)

(** The first four rows of [capitals_data]. *)
Definition four_capitals : list CapitalRow :=
  [ {| Country := "France"; Capital := "Paris";
       Latitude := 48.8566%Q; Longitude := 2.3522%Q |};
    {| Country := "Germany"; Capital := "Berlin";
       Latitude := 52.5200%Q; Longitude := 13.4050%Q |};
    {| Country := "Spain"; Capital := "Madrid";
       Latitude := 40.4168%Q; Longitude := (-3.7038)%Q |};
    {| Country := "Italy"; Capital := "Rome";
       Latitude := 41.9028%Q; Longitude := 12.4964%Q |} ].

(** A stand-in for the geodesic distance: 150 km per degree of difference in
    latitude plus 100 km per degree of difference in longitude. *)
Definition grid_distance (lat1 lon1 lat2 lon2 : Q) : Q :=
  (150 * Qabs (lat1 - lat2) + 100 * Qabs (lon1 - lon2))%Q.

(** A number with its decimal digits and a zero decimal. *)
Definition decimal_1f (z : Z) : string := pretty z +:+ ".0".

(** * Lemmas *)

(** Goals on sums of [if decide ...] terms: split the tests, then linear
    arithmetic. *)
Ltac case_lia := repeat case_decide; lia.

(** ** Loops over a dictionary that update the node dictionary in place *)

Section node_fold.
Context {V : Type}.
Variable upd : V → Settlement → option Settlement.
Variable body : string → V → gmap string Settlement → option (gmap string Settlement).
Hypothesis body_spec : ∀ c v ns,
  body c v ns = (n ← ns !! c; n' ← upd v n; Some (<[c := n']> ns)).

Lemma node_fold_spec (ns0 : gmap string Settlement) (m : gmap string V) :
  match map_fold (λ c v acc, acc ≫= body c v) (Some ns0) m with
  | Some ns' =>
      ∀ c, ns' !! c = match m !! c with
                      | Some v => ns0 !! c ≫= upd v
                      | None => ns0 !! c
                      end
           ∧ (is_Some (m !! c) → is_Some (ns' !! c))
  | None => ∃ c v, m !! c = Some v ∧ ns0 !! c ≫= upd v = None
  end.
Proof.
  apply (map_fold_weak_ind (λ r m,
    match r with
    | Some ns' =>
        ∀ c, ns' !! c = match m !! c with
                        | Some v => ns0 !! c ≫= upd v
                        | None => ns0 !! c
                        end
             ∧ (is_Some (m !! c) → is_Some (ns' !! c))
    | None => ∃ c v, m !! c = Some v ∧ ns0 !! c ≫= upd v = None
    end)).
  - intros c. rewrite lookup_empty. split; [done|]. by intros [? ?].
  - clear m. intros i x m r Hi IH. destruct r as [ns|]; simpl.
    + rewrite body_spec. destruct (IH i) as [Hns _]. rewrite Hi in Hns.
      rewrite Hns. destruct (ns0 !! i) as [n|] eqn:Hn; simpl.
      * destruct (upd x n) as [n'|] eqn:Hu; simpl.
        -- intros c. destruct (decide (i = c)) as [->|Hne].
           ++ rewrite !lookup_insert_eq, Hn. simpl. rewrite Hu. eauto.
           ++ rewrite !lookup_insert_ne by done. apply IH.
        -- exists i, x. by rewrite lookup_insert_eq, Hn.
      * exists i, x. by rewrite lookup_insert_eq, Hn.
    + destruct IH as (c & v & Hc & Hf). exists c, v. split; [|done].
      rewrite lookup_insert_ne; [done|]. intros ->. congruence.
Qed.
End node_fold.

Lemma produce_city_spec a c ns :
  produce_city a c ns = (n ← ns !! c; n' ← produce_one a n; Some (<[c := n']> ns)).
Proof.
  unfold produce_city, produce_one. destruct (ns !! c) as [n|] eqn:Hn; simpl; [|done].
  destruct (blocked n); simpl; [|done]. by rewrite insert_id.
Qed.

Lemma produce_food_lookup G a G' :
  produce_food G a = Some G' →
  edges G' = edges G ∧
  ∀ c, nodes G' !! c = nodes G !! c ≫= produce_one a
       ∧ (is_Some (nodes G !! c) → is_Some (nodes G' !! c)).
Proof.
  unfold produce_food. intros H.
  pose proof (node_fold_spec (λ _ : Settlement, produce_one a)
                (λ c _, produce_city a c) (λ c _, produce_city_spec a c)
                (nodes G) (nodes G)) as Hs. simpl in Hs.
  destruct (map_fold _ _ _) as [ns|]; simplify_eq/=. split; [done|].
  intros c. destruct (Hs c) as [-> Hd]. split; [|done]. by destruct (nodes G !! c).
Qed.

Lemma produce_food_None G a :
  produce_food G a = None →
  ∃ c n, nodes G !! c = Some n ∧ produce_one a n = None.
Proof.
  unfold produce_food. intros H.
  pose proof (node_fold_spec (λ _ : Settlement, produce_one a)
                (λ c _, produce_city a c) (λ c _, produce_city_spec a c)
                (nodes G) (nodes G)) as Hs. simpl in Hs.
  destruct (map_fold _ _ _) as [ns|]; simplify_eq/=.
  destruct Hs as (c & v & Hc & Hf). exists c, v. by rewrite Hc in Hf.
Qed.

Lemma apply_flow_spec c fl ns :
  apply_flow c fl ns = (n ← ns !! c; n' ← add_food fl n; Some (<[c := n']> ns)).
Proof. done. Qed.

Lemma apply_flows_lookup ns ff ns' :
  apply_flows ns ff = Some ns' →
  ∀ c, ns' !! c = match ff !! c with
                  | Some fl => ns !! c ≫= add_food fl
                  | None => ns !! c
                  end
       ∧ (is_Some (ff !! c) → is_Some (ns' !! c)).
Proof.
  unfold apply_flows. intros H.
  pose proof (node_fold_spec add_food apply_flow apply_flow_spec ns ff) as Hs.
  by rewrite H in Hs.
Qed.

Lemma apply_flows_None ns ff :
  apply_flows ns ff = None →
  ∃ c fl, ff !! c = Some fl ∧ ns !! c ≫= add_food fl = None.
Proof.
  unfold apply_flows. intros H.
  pose proof (node_fold_spec add_food apply_flow apply_flow_spec ns ff) as Hs.
  by rewrite H in Hs.
Qed.

Lemma flow_add_lookup c x ff ff' :
  flow_add c x ff = Some ff' →
  ∀ k, ff' !! k = (λ v, v + (if decide (k = c) then x else 0)) <$> ff !! k.
Proof.
  unfold flow_add. intros H k. destruct (ff !! c) as [v|] eqn:Hv; simplify_eq/=.
  destruct (decide (k = c)) as [->|Hne].
  - by rewrite lookup_insert_eq, Hv.
  - rewrite lookup_insert_ne by done. destruct (ff !! k); simpl; f_equal; lia.
Qed.

Lemma flow_sub_lookup c x ff ff' :
  flow_sub c x ff = Some ff' →
  ∀ k, ff' !! k = (λ v, v - (if decide (k = c) then x else 0)) <$> ff !! k.
Proof.
  unfold flow_sub. intros H k. destruct (ff !! c) as [v|] eqn:Hv; simplify_eq/=.
  destruct (decide (k = c)) as [->|Hne].
  - by rewrite lookup_insert_eq, Hv.
  - rewrite lookup_insert_ne by done. destruct (ff !! k); simpl; f_equal; lia.
Qed.

Lemma flow_sub_add_lookup d r x ff ff' :
  flow_sub d x ff ≫= flow_add r x = Some ff' →
  ∀ k, ff' !! k = (λ v, v + ((if decide (k = r) then x else 0)
                             - (if decide (k = d) then x else 0))) <$> ff !! k.
Proof.
  intros H k. destruct (flow_sub d x ff) as [ff1|] eqn:H1; simplify_eq/=.
  rewrite (flow_add_lookup _ _ _ _ H k), (flow_sub_lookup _ _ _ _ H1 k).
  destruct (ff !! k); simpl; f_equal; lia.
Qed.

Lemma flow_sub_add_is_Some d r x ff :
  is_Some (ff !! d) → is_Some (ff !! r) → is_Some (flow_sub d x ff ≫= flow_add r x).
Proof.
  intros [vd Hd] [vr Hr]. unfold flow_sub at 1. rewrite Hd. simpl.
  unfold flow_add. destruct (decide (r = d)) as [->|Hne].
  - rewrite lookup_insert_eq. by eexists.
  - rewrite lookup_insert_ne by done. rewrite Hr. by eexists.
Qed.

Lemma lookup_plus_0 (ff : gmap string Z) k : ff !! k = (λ v, v + 0) <$> ff !! k.
Proof. destruct (ff !! k); simpl; f_equal; lia. Qed.

Lemma trade_edge_lookup G T cap ff e ff' :
  trade_edge G T cap ff e = Some ff' →
  ∀ k, ff' !! k = (λ v, v + link_delta G T cap e k) <$> ff !! k.
Proof.
  destruct e as [[a b] l]. unfold trade_edge, link_delta, link_flow. simpl.
  intros H k.
  destruct (nodes G !! a) as [nA|]; simplify_eq/=.
  destruct (blocked nA) eqn:HbA; simplify_eq/=.
  { destruct (nodes G !! b); destruct (ff' !! k); simpl; f_equal;
      case_lia. }
  destruct (nodes G !! b) as [nB|]; simplify_eq/=.
  destruct (blocked nB) eqn:HbB; simplify_eq/=.
  { destruct (ff' !! k); simpl; f_equal; case_lia. }
  destruct (food nA) as [fA|]; simplify_eq/=.
  destruct (food nB) as [fB|]; simplify_eq/=.
  destruct ((T <? fA) && (fB <? T)).
  { apply (flow_sub_add_lookup _ _ _ _ _ H). }
  destruct ((T <? fB) && (fA <? T)).
  { rewrite (flow_sub_add_lookup _ _ _ _ _ H k).
    destruct (ff !! k); simpl; f_equal; case_lia. }
  simplify_eq. destruct (ff' !! k); simpl; f_equal; case_lia.
Qed.

Lemma trade_edge_Some_ok G T cap ff e :
  is_Some (trade_edge G T cap ff e) → edge_ok G e = true.
Proof.
  destruct e as [[a b] l]. unfold trade_edge, edge_ok. simpl. intros [ff' H].
  destruct (nodes G !! a) as [nA|]; simplify_eq/=.
  destruct (blocked nA); simplify_eq/=; [done|].
  destruct (nodes G !! b) as [nB|]; simplify_eq/=.
  destruct (blocked nB); simplify_eq/=; [done|].
  destruct (food nA) as [fA|]; simplify_eq/=.
  destruct (food nB) as [fB|]; simplify_eq/=.
  done.
Qed.

Lemma trade_edge_ok_Some G T cap ff e :
  covers G ff → edge_ok G e = true → is_Some (trade_edge G T cap ff e).
Proof.
  destruct e as [[a b] l]. unfold trade_edge, edge_ok. simpl. intros Hc H.
  destruct (nodes G !! a) as [nA|] eqn:HA; simplify_eq/=.
  destruct (blocked nA); simplify_eq/=; [by eexists|].
  destruct (nodes G !! b) as [nB|] eqn:HB; simplify_eq/=.
  destruct (blocked nB); simplify_eq/=; [by eexists|].
  apply andb_true_iff in H as [[fA HfA]%bool_decide_eq_true [fB HfB]%bool_decide_eq_true].
  rewrite HfA, HfB. simpl.
  assert (is_Some (ff !! a)) by (apply Hc; eauto).
  assert (is_Some (ff !! b)) by (apply Hc; eauto).
  destruct ((T <? fA) && (fB <? T)); [by apply flow_sub_add_is_Some|].
  destruct ((T <? fB) && (fA <? T)); [by apply flow_sub_add_is_Some|].
  by eexists.
Qed.

Lemma trade_edge_covers G T cap ff e ff' :
  trade_edge G T cap ff e = Some ff' → covers G ff → covers G ff'.
Proof.
  intros H Hc c Hn. rewrite (trade_edge_lookup _ _ _ _ _ _ H c).
  apply fmap_is_Some. by apply Hc.
Qed.

(** ** The loop over the links *)

Lemma trade_loop_nil G T cap ff : trade_loop G T cap [] ff = Some ff.
Proof. done. Qed.

Lemma trade_loop_None G T cap es :
  foldl (λ acc e, acc ≫= λ ff, trade_edge G T cap ff e) None es = None.
Proof. induction es as [|e es IH]; simpl; auto. Qed.

Lemma trade_loop_cons G T cap e es ff :
  trade_loop G T cap (e :: es) ff
  = trade_edge G T cap ff e ≫= trade_loop G T cap es.
Proof.
  unfold trade_loop. simpl. destruct (trade_edge G T cap ff e); simpl; [done|].
  apply trade_loop_None.
Qed.

Lemma trade_loop_lookup G T cap es : ∀ ff ff',
  trade_loop G T cap es ff = Some ff' →
  ∀ k, ff' !! k = (λ v, v + net_flow G T cap es k) <$> ff !! k.
Proof.
  induction es as [|e es IH]; intros ff ff' H k.
  - rewrite trade_loop_nil in H. simplify_eq. simpl. apply lookup_plus_0.
  - rewrite trade_loop_cons in H.
    destruct (trade_edge G T cap ff e) as [ff1|] eqn:He; simplify_eq/=.
    rewrite (IH _ _ H k), (trade_edge_lookup _ _ _ _ _ _ He k).
    destruct (ff !! k); simpl; f_equal; lia.
Qed.

Lemma trade_loop_Some_ok G T cap es : ∀ ff,
  is_Some (trade_loop G T cap es ff) → forallb (edge_ok G) es = true.
Proof.
  induction es as [|e es IH]; intros ff H; [done|].
  rewrite trade_loop_cons in H. simpl.
  destruct (trade_edge G T cap ff e) as [ff1|] eqn:He; simpl in H.
  - rewrite (trade_edge_Some_ok G T cap ff e) by (rewrite He; eauto).
    simpl. by eapply IH.
  - by destruct H.
Qed.

Lemma trade_loop_ok_Some G T cap es : ∀ ff,
  covers G ff → forallb (edge_ok G) es = true →
  is_Some (trade_loop G T cap es ff).
Proof.
  induction es as [|e es IH]; intros ff Hc H; [by eexists|].
  rewrite trade_loop_cons. simpl in H. apply andb_true_iff in H as [He Hes].
  destruct (trade_edge_ok_Some G T cap ff e Hc He) as [ff1 H1]. rewrite H1. simpl.
  apply IH; [|done]. by eapply trade_edge_covers.
Qed.

Lemma net_flow_Permutation G T cap es es' k :
  es ≡ₚ es' → net_flow G T cap es k = net_flow G T cap es' k.
Proof.
  unfold net_flow. induction 1; simpl; lia.
Qed.

Lemma forallb_Permutation {A} (p : A → bool) (l l' : list A) :
  l ≡ₚ l' → forallb p l = forallb p l'.
Proof.
  induction 1; simpl; try congruence.
  by rewrite !andb_assoc, (andb_comm (p x)).
Qed.

Lemma initial_flows_covers G : covers G ((λ _ : Settlement, 0) <$> nodes G).
Proof. intros c Hc. rewrite lookup_fmap. by apply fmap_is_Some. Qed.

(** ** Closed form of [trade_food] *)

Lemma all_fed_lookup ns c n :
  all_fed ns = true → ns !! c = Some n → is_Some (food n).
Proof.
  unfold all_fed. intros H%bool_decide_eq_true Hc. by apply (H c n).
Qed.

Lemma trade_food_lookup G T cap G' :
  trade_food G T cap = Some G' →
  edges G' = edges G ∧
  ∀ c, nodes G' !! c = nodes G !! c ≫= add_food (net_flow G T cap (edges G) c)
       ∧ (is_Some (nodes G !! c) → is_Some (nodes G' !! c)).
Proof.
  unfold trade_food. intros H.
  destruct (trade_loop G T cap (edges G) _) as [ff|] eqn:Hl; simplify_eq/=.
  destruct (apply_flows (nodes G) ff) as [ns|] eqn:Ha; simplify_eq/=.
  split; [done|]. intros c.
  destruct (apply_flows_lookup _ _ _ Ha c) as [-> Hd].
  rewrite (trade_loop_lookup _ _ _ _ _ _ Hl c) in *.
  rewrite lookup_fmap in *. destruct (nodes G !! c); simpl in *; [|done].
  split; [done|]. intros _. apply Hd. eauto.
Qed.

Lemma trade_food_is_Some G T cap :
  is_Some (trade_food G T cap)
  ↔ forallb (edge_ok G) (edges G) = true ∧ all_fed (nodes G) = true.
Proof.
  unfold trade_food. split.
  - intros [G' H].
    destruct (trade_loop G T cap (edges G) _) as [ff|] eqn:Hl; simplify_eq/=.
    destruct (apply_flows (nodes G) ff) as [ns|] eqn:Ha; simplify_eq/=.
    split.
    + eapply trade_loop_Some_ok. rewrite Hl. eauto.
    + apply bool_decide_eq_true. intros c n Hc.
      destruct (apply_flows_lookup _ _ _ Ha c) as [Hn Hsome].
      pose proof (trade_loop_lookup _ _ _ _ _ _ Hl c) as Hf.
      rewrite lookup_fmap, Hc in Hf. simpl in Hf. rewrite Hf, Hc in Hn. simpl in Hn.
      destruct Hsome as [n' Hn']; [by rewrite Hf|].
      rewrite Hn' in Hn. unfold add_food in Hn. destruct (food n); [eauto|done].
  - intros [He Hfed].
    destruct (trade_loop_ok_Some G T cap (edges G) _ (initial_flows_covers G) He)
      as [ff Hl].
    rewrite Hl. simpl.
    destruct (apply_flows (nodes G) ff) as [ns|] eqn:Ha; simpl; [by eexists|].
    apply apply_flows_None in Ha as (c & fl & Hc & Hf).
    destruct (nodes G !! c) as [n|] eqn:Hn; simpl in Hf.
    + destruct (all_fed_lookup _ _ _ Hfed Hn) as [f Hfood].
      unfold add_food in Hf. by rewrite Hfood in Hf.
    + rewrite (trade_loop_lookup _ _ _ _ _ _ Hl c), lookup_fmap, Hn in Hc. done.
Qed.

(** ** [add_food] *)

Lemma add_food_Some x n f :
  food n = Some f →
  add_food x n = Some (set_resources (<["food" := f + x]> (resources n)) n).
Proof. unfold add_food. by intros ->. Qed.

Lemma add_food_inv x n n' :
  add_food x n = Some n' →
  ∃ f, food n = Some f ∧ food n' = Some (f + x) ∧ only_food_changed n n'.
Proof.
  unfold add_food. destruct (food n) as [f|] eqn:Hf; intros H; simplify_eq/=.
  exists f. split; [done|]. split.
  - unfold food. simpl. apply lookup_insert_eq.
  - repeat split; simpl. intros r Hr. by rewrite lookup_insert_ne.
Qed.

Lemma add_food_0 n : is_Some (food n) → add_food 0 n = Some n.
Proof.
  intros [f Hf]. rewrite (add_food_Some _ _ _ Hf). f_equal.
  destruct n as [p c b r]. unfold set_resources, food in *. simpl in *.
  f_equal. rewrite Z.add_0_r. by apply insert_id.
Qed.

Lemma only_food_changed_refl n : only_food_changed n n.
Proof. by repeat split. Qed.

Lemma produce_one_inv a n n' :
  produce_one a n = Some n' →
  only_food_changed n n' ∧
  food n' = (λ f, if blocked n then f else f + a) <$> food n.
Proof.
  unfold produce_one. destruct (blocked n) eqn:Hb.
  - intros [= <-]. split; [apply only_food_changed_refl|]. by destruct (food n).
  - intros (f & Hf & Hf' & Hfr)%add_food_inv. by rewrite Hf, Hf'.
Qed.

Lemma produce_one_is_Some a n : is_Some (food n) → is_Some (produce_one a n).
Proof.
  intros [f Hf]. unfold produce_one. destruct (blocked n); [by eexists|].
  rewrite (add_food_Some _ _ _ Hf). by eexists.
Qed.

(** ** Totality on well-formed graphs *)

Lemma graph_wf_fed G : graph_wf G = true → all_fed (nodes G) = true.
Proof. unfold graph_wf. by intros [? ?]%andb_true_iff. Qed.

Lemma graph_wf_node_food G c n :
  graph_wf G = true → nodes G !! c = Some n → is_Some (food n).
Proof. intros H%graph_wf_fed. by apply all_fed_lookup. Qed.

Lemma graph_wf_edge G e :
  graph_wf G = true → e ∈ edges G →
  is_Some (nodes G !! e.1.1) ∧ is_Some (nodes G !! e.1.2).
Proof.
  unfold graph_wf. intros [_ H]%andb_true_iff He.
  rewrite forallb_forall in H. apply list_elem_of_In, H in He.
  apply andb_true_iff in He as [?%bool_decide_eq_true ?%bool_decide_eq_true]. done.
Qed.

Lemma graph_wf_edges_ok G :
  graph_wf G = true → forallb (edge_ok G) (edges G) = true.
Proof.
  intros Hwf. apply forallb_forall. intros e He%list_elem_of_In.
  destruct (graph_wf_edge G e Hwf He) as [[nA HA] [nB HB]].
  unfold edge_ok. rewrite HA, HB.
  destruct (graph_wf_node_food _ _ _ Hwf HA), (graph_wf_node_food _ _ _ Hwf HB).
  rewrite !bool_decide_eq_true_2 by eauto. by rewrite !orb_true_r.
Qed.

Lemma produce_food_total G a :
  all_fed (nodes G) = true → is_Some (produce_food G a).
Proof.
  intros Hfed. destruct (produce_food G a) eqn:H; [by eexists|].
  apply produce_food_None in H as (c & n & Hc & Hn).
  destruct (produce_one_is_Some a n) as [? ?]; [|congruence].
  by eapply all_fed_lookup.
Qed.

Lemma trade_food_total G T cap :
  graph_wf G = true → is_Some (trade_food G T cap).
Proof.
  intros Hwf. apply trade_food_is_Some. split.
  - by apply graph_wf_edges_ok.
  - by apply graph_wf_fed.
Qed.

(** Both operations keep the set of nodes, the edges and everything in a
    node but its food. *)
Lemma produce_food_frame G a G' : produce_food G a = Some G' → same_frame G G'.
Proof.
  intros [He Hn]%produce_food_lookup. split; [done|]. intros c.
  destruct (Hn c) as [Hc Hd]. destruct (nodes G !! c) as [n|]; simpl in *.
  - destruct Hd as [n' Hn']; [eauto|]. rewrite Hn' in *.
    symmetry in Hc. by apply produce_one_inv in Hc as [? _].
  - by rewrite Hc.
Qed.

Lemma trade_food_frame G T cap G' : trade_food G T cap = Some G' → same_frame G G'.
Proof.
  intros [He Hn]%trade_food_lookup. split; [done|]. intros c.
  destruct (Hn c) as [Hc Hd]. destruct (nodes G !! c) as [n|]; simpl in *.
  - destruct Hd as [n' Hn']; [eauto|]. rewrite Hn' in *.
    symmetry in Hc. by apply add_food_inv in Hc as (? & ? & ? & ?).
  - by rewrite Hc.
Qed.

Lemma same_frame_dom G G' c :
  same_frame G G' → is_Some (nodes G !! c) → is_Some (nodes G' !! c).
Proof.
  intros [_ H] [n Hn]. specialize (H c). rewrite Hn in H.
  destruct (nodes G' !! c); [eauto|done].
Qed.

Lemma same_frame_blocked G G' c :
  same_frame G G' → is_blocked G' c = is_blocked G c.
Proof.
  intros [_ H]. specialize (H c). unfold is_blocked.
  destruct (nodes G !! c), (nodes G' !! c); try done. by destruct H as (_ & _ & ? & _).
Qed.

Lemma same_frame_wf G G' :
  same_frame G G' →
  (∀ c n', nodes G' !! c = Some n' → is_Some (food n')) →
  graph_wf G = true → graph_wf G' = true.
Proof.
  intros Hfr Hfed Hwf. unfold graph_wf. apply andb_true_iff. split.
  - apply bool_decide_eq_true. intros c n' Hc. by eapply Hfed.
  - destruct Hfr as [He Hn]. rewrite He. apply forallb_forall.
    intros e Hin%list_elem_of_In.
    destruct (graph_wf_edge G e Hwf Hin) as [HA HB].
    apply andb_true_iff; split; apply bool_decide_eq_true;
      eapply same_frame_dom; eauto; by split.
Qed.

Lemma produce_food_wf G a G' :
  produce_food G a = Some G' → graph_wf G = true → graph_wf G' = true.
Proof.
  intros H Hwf. eapply same_frame_wf; [by eapply produce_food_frame| |done].
  intros c n' Hc. apply produce_food_lookup in H as [_ Hn].
  destruct (Hn c) as [Hl _]. rewrite Hc in Hl.
  destruct (nodes G !! c) as [n|] eqn:Hg; simplify_eq/=.
  symmetry in Hl. apply produce_one_inv in Hl as [_ ->].
  apply fmap_is_Some. by eapply graph_wf_node_food.
Qed.

Lemma trade_food_wf G T cap G' :
  trade_food G T cap = Some G' → graph_wf G = true → graph_wf G' = true.
Proof.
  intros H Hwf. eapply same_frame_wf; [by eapply trade_food_frame| |done].
  intros c n' Hc. apply trade_food_lookup in H as [_ Hn].
  destruct (Hn c) as [Hl _]. rewrite Hc in Hl.
  destruct (nodes G !! c) as [n|] eqn:Hg; simplify_eq/=.
  symmetry in Hl. apply add_food_inv in Hl as (f & _ & -> & _). eauto.
Qed.

Lemma economy_step_total a T cap G :
  graph_wf G = true →
  ∃ G1 G2, produce_food G a = Some G1 ∧ trade_food G1 T cap = Some G2 ∧
           economy_step a T cap G = Some G2 ∧
           graph_wf G1 = true ∧ graph_wf G2 = true.
Proof.
  intros Hwf. unfold economy_step.
  destruct (produce_food_total G a (graph_wf_fed G Hwf)) as [G1 H1].
  pose proof (produce_food_wf _ _ _ H1 Hwf) as Hwf1.
  destruct (trade_food_total G1 T cap Hwf1) as [G2 H2].
  exists G1, G2. rewrite H1. simpl. repeat split; try done.
  by eapply trade_food_wf.
Qed.

Lemma run_total steps a T cap : ∀ G,
  graph_wf G = true →
  ∃ G', run steps a T cap G = Some G' ∧ graph_wf G' = true.
Proof.
  induction steps as [|k IH]; intros G Hwf; simpl; [eauto|].
  destruct (economy_step_total a T cap G Hwf) as (G1 & G2 & _ & _ & -> & _ & Hwf2).
  simpl. by apply IH.
Qed.

(** ** Sums over a dictionary *)

Section map_sum.
Context {A : Type}.
Implicit Types (f g : string → A → Z) (m : gmap string A).

Lemma map_sum_empty f : map_sum f (∅ : gmap string A) = 0.
Proof. apply map_fold_empty. Qed.

Lemma map_sum_insert f m k v :
  m !! k = None → map_sum f (<[k := v]> m) = f k v + map_sum f m.
Proof.
  intros Hk. unfold map_sum. rewrite map_fold_insert_L; [done| |done].
  intros. lia.
Qed.

Lemma map_sum_ext f g m :
  (∀ k v, m !! k = Some v → f k v = g k v) → map_sum f m = map_sum g m.
Proof.
  induction m as [|k v m Hk IH] using map_ind; intros H.
  - by rewrite !map_sum_empty.
  - rewrite !map_sum_insert by done. rewrite (H k v) by apply lookup_insert_eq.
    rewrite IH; [done|]. intros k' v' Hk'. apply H.
    rewrite lookup_insert_ne; [done|]. intros ->. congruence.
Qed.

Lemma map_sum_plus f g m :
  map_sum (λ k v, f k v + g k v) m = map_sum f m + map_sum g m.
Proof.
  induction m as [|k v m Hk IH] using map_ind.
  - by rewrite !map_sum_empty.
  - rewrite !map_sum_insert by done. lia.
Qed.

Lemma map_sum_zero m : map_sum (λ _ _, 0) m = 0.
Proof.
  induction m as [|k v m Hk IH] using map_ind.
  - by rewrite map_sum_empty.
  - rewrite map_sum_insert by done. lia.
Qed.

Lemma map_sum_indicator m (c : string) (x : Z) :
  map_sum (λ k _, if decide (k = c) then x else 0) m
  = match m !! c with Some _ => x | None => 0 end.
Proof.
  induction m as [|k v m Hk IH] using map_ind.
  - by rewrite map_sum_empty, lookup_empty.
  - rewrite map_sum_insert by done. rewrite IH.
    destruct (decide (k = c)) as [->|Hne].
    + rewrite lookup_insert_eq, Hk. lia.
    + rewrite lookup_insert_ne by done. lia.
Qed.
End map_sum.

(** Two dictionaries with the same keys: the sums agree when the summands
    agree key by key. *)
Lemma map_sum_related {A B} (f : string → A → Z) (g : string → B → Z)
    (m' : gmap string A) (m : gmap string B) :
  (∀ k, match m' !! k, m !! k with
        | Some v', Some v => f k v' = g k v
        | None, None => True
        | _, _ => False
        end) →
  map_sum f m' = map_sum g m.
Proof.
  revert m'. induction m as [|k v m Hk IH] using map_ind; intros m' H.
  - assert (m' = ∅) as ->.
    { apply map_empty. intros k. specialize (H k). rewrite lookup_empty in H.
      by destruct (m' !! k). }
    by rewrite !map_sum_empty.
  - pose proof (H k) as Hkk. rewrite lookup_insert_eq in Hkk.
    destruct (m' !! k) as [v'|] eqn:Hk'; [|done].
    rewrite <- (insert_delete_id m' k v') by done.
    rewrite !map_sum_insert by (done || apply lookup_delete_eq).
    rewrite Hkk. f_equal. apply IH. intros k0.
    destruct (decide (k0 = k)) as [->|Hne].
    + by rewrite lookup_delete_eq, Hk.
    + rewrite lookup_delete_ne by done. specialize (H k0).
      by rewrite lookup_insert_ne in H.
Qed.

(** ** Properties of [link_flow] *)

Lemma link_flow_blocked G T cap e :
  is_blocked G e.1.1 = true ∨ is_blocked G e.1.2 = true → link_flow G T cap e = 0.
Proof.
  unfold is_blocked, link_flow.
  destruct (nodes G !! e.1.1) as [nA|], (nodes G !! e.1.2) as [nB|]; try done.
  intros [-> | ->]; [done|]. by rewrite orb_true_r.
Qed.

Lemma link_flow_missing G T cap e :
  nodes G !! e.1.1 = None ∨ nodes G !! e.1.2 = None → link_flow G T cap e = 0.
Proof.
  unfold link_flow. intros [-> | ->]; [done|]. by destruct (nodes G !! e.1.1).
Qed.

Lemma link_delta_untouched G T cap e c :
  touches c e = false → link_delta G T cap e c = 0.
Proof.
  unfold touches, link_delta.
  intros [?%bool_decide_eq_false ?%bool_decide_eq_false]%orb_false_iff.
  rewrite !decide_False by done. lia.
Qed.

Lemma link_delta_no_flow G T cap e c :
  link_flow G T cap e = 0 → link_delta G T cap e c = 0.
Proof. unfold link_delta. intros ->. case_lia. Qed.

(** The orientation in which a link is yielded does not matter. *)
Lemma link_delta_flip G T cap a b l l' c :
  link_delta G T cap (b, a, l') c = link_delta G T cap (a, b, l) c.
Proof.
  unfold link_delta, link_flow. simpl.
  destruct (nodes G !! a) as [nA|], (nodes G !! b) as [nB|];
    try (case_lia).
  rewrite (orb_comm (blocked nB)). destruct (blocked nA || blocked nB);
    [case_lia|].
  destruct (food nA) as [fA|], (food nB) as [fB|]; try (case_lia).
  destruct ((T <? fA) && (fB <? T)) eqn:H1, ((T <? fB) && (fA <? T)) eqn:H2;
    case_lia.
Qed.

(** What leaves one endpoint of a link arrives at the other. *)
Lemma link_delta_total G T cap e :
  map_sum (λ c _, link_delta G T cap e c) (nodes G) = 0.
Proof.
  unfold link_delta.
  rewrite (map_sum_ext _ (λ c n,
    (if decide (c = e.1.2) then link_flow G T cap e else 0)
    + (if decide (c = e.1.1) then - link_flow G T cap e else 0))).
  2: { intros k v _. case_lia. }
  rewrite map_sum_plus, !map_sum_indicator.
  destruct (nodes G !! e.1.1) eqn:HA; [|rewrite link_flow_missing by auto; by case_match].
  destruct (nodes G !! e.1.2) eqn:HB; [|rewrite link_flow_missing by auto; done].
  lia.
Qed.

Lemma net_flow_total G T cap es :
  map_sum (λ c _, net_flow G T cap es c) (nodes G) = 0.
Proof.
  induction es as [|e es IH]; simpl.
  - apply map_sum_zero.
  - rewrite map_sum_plus, link_delta_total, IH. done.
Qed.

Lemma net_flow_no_flow G T cap es c :
  Forall (λ e, link_flow G T cap e = 0) es → net_flow G T cap es c = 0.
Proof.
  induction 1 as [|e es He _ IH]; simpl; [done|].
  rewrite link_delta_no_flow by done. lia.
Qed.

Lemma stock_Some G c n f : nodes G !! c = Some n → food n = Some f → stock G c = Some f.
Proof. unfold stock. intros -> Hf. simpl. done. Qed.

(** The food of every node after [trade_food], on a well-formed graph. *)
Lemma trade_food_stock G T cap G' c n :
  trade_food G T cap = Some G' → nodes G !! c = Some n →
  ∃ f n', food n = Some f ∧ nodes G' !! c = Some n' ∧
          food n' = Some (f + net_flow G T cap (edges G) c) ∧
          only_food_changed n n'.
Proof.
  intros [_ Hn]%trade_food_lookup Hc. destruct (Hn c) as [Hl Hd].
  destruct Hd as [n' Hn']; [eauto|]. rewrite Hn', Hc in Hl. simpl in Hl.
  symmetry in Hl. apply add_food_inv in Hl as (f & ? & ? & ?). by exists f, n'.
Qed.

Example pair_graph_stock_A :
  (trade_food pair_graph 100 20 ≫= λ G, stock G "A") = Some 110.
Proof. vm_compute. reflexivity. Qed.

Example star_graph_degree : degree (edges star_graph) "Hub" = 7.
Proof. vm_compute. reflexivity. Qed.

(** ** Blocked settlements *)

(** A link with a blocked endpoint is skipped by the loop. *)
Lemma trade_edge_blocked G T cap ff e :
  is_Some (nodes G !! e.1.1) →
  is_blocked G e.1.1 = true ∨ is_blocked G e.1.2 = true →
  trade_edge G T cap ff e = Some ff.
Proof.
  destruct e as [[a b] l]. unfold trade_edge, is_blocked. simpl.
  intros [nA ->] Hb. simpl. destruct (blocked nA); [done|].
  destruct Hb as [?|Hb]; [done|].
  destruct (nodes G !! b) as [nB|]; [|done]. simpl. by rewrite Hb.
Qed.

Lemma net_flow_blocked G T cap es c :
  is_blocked G c = true → net_flow G T cap es c = 0.
Proof.
  intros Hb. induction es as [|e es IH]; simpl; [done|]. rewrite IH.
  destruct (touches c e) eqn:Ht.
  - rewrite link_delta_no_flow; [done|]. apply link_flow_blocked.
    unfold touches in Ht.
    apply orb_true_iff in Ht as [<-%bool_decide_eq_true | <-%bool_decide_eq_true]; auto.
  - by rewrite link_delta_untouched.
Qed.

Lemma trade_food_blocked_node G T cap G' c n :
  trade_food G T cap = Some G' → nodes G !! c = Some n → blocked n = true →
  nodes G' !! c = Some n.
Proof.
  intros H Hc Hb. destruct (trade_food_stock _ _ _ _ _ _ H Hc) as (f & n' & Hf & _).
  apply trade_food_lookup in H as [_ Hn]. destruct (Hn c) as [-> _].
  rewrite Hc. simpl. rewrite net_flow_blocked.
  - apply add_food_0. eauto.
  - unfold is_blocked. by rewrite Hc.
Qed.

Lemma produce_food_blocked_node G a G' c n :
  produce_food G a = Some G' → nodes G !! c = Some n → blocked n = true →
  nodes G' !! c = Some n.
Proof.
  intros [_ Hn]%produce_food_lookup Hc Hb. destruct (Hn c) as [-> _].
  rewrite Hc. simpl. unfold produce_one. by rewrite Hb.
Qed.

Lemma run_blocked_node steps a T cap c n : ∀ G,
  graph_wf G = true → nodes G !! c = Some n → blocked n = true →
  ∃ G', run steps a T cap G = Some G' ∧ graph_wf G' = true ∧
        edges G' = edges G ∧ nodes G' !! c = Some n.
Proof.
  induction steps as [|k IH]; intros G Hwf Hc Hb; simpl; [by eauto|].
  destruct (economy_step_total a T cap G Hwf) as (G1 & G2 & H1 & H2 & -> & _ & Hwf2).
  simpl. destruct (IH G2) as (G' & Hr & Hwf' & He & Hn); [done| |done|].
  - eapply trade_food_blocked_node; [done| |done].
    by eapply produce_food_blocked_node.
  - exists G'. repeat split; try done. rewrite He.
    apply trade_food_lookup in H2 as [-> _]. by apply produce_food_lookup in H1 as [-> _].
Qed.

(** ** The order of the links *)

Lemma trade_food_set_edges_is_Some G es es' T cap :
  es ≡ₚ es' →
  is_Some (trade_food (set_edges es G) T cap) →
  is_Some (trade_food (set_edges es' G) T cap).
Proof.
  intros Hp. rewrite !trade_food_is_Some. simpl. intros [He Hf]. split; [|done].
  rewrite <- He. symmetry. by apply (forallb_Permutation (edge_ok (set_edges es G))).
Qed.

Lemma trade_food_set_edges G es es' T cap :
  es ≡ₚ es' →
  nodes <$> trade_food (set_edges es' G) T cap
  = nodes <$> trade_food (set_edges es G) T cap.
Proof.
  intros Hp.
  destruct (trade_food (set_edges es G) T cap) as [G1|] eqn:H1;
    destruct (trade_food (set_edges es' G) T cap) as [G2|] eqn:H2; simpl.
  - f_equal. apply map_eq. intros c.
    apply trade_food_lookup in H1 as [_ Hn1]. apply trade_food_lookup in H2 as [_ Hn2].
    destruct (Hn1 c) as [-> _]. destruct (Hn2 c) as [-> _]. simpl.
    f_equal. f_equal. symmetry.
    apply (net_flow_Permutation (set_edges es G) T cap es es' c Hp).
  - destruct (trade_food_set_edges_is_Some G es es' T cap Hp) as [? ?]; [eauto|].
    congruence.
  - destruct (trade_food_set_edges_is_Some G es' es T cap) as [? ?]; [done|eauto|].
    congruence.
  - done.
Qed.

(** ** The two endpoints of a link *)

Lemma net_flow_app G T cap l1 l2 c :
  net_flow G T cap (l1 ++ l2)%list c = net_flow G T cap l1 c + net_flow G T cap l2 c.
Proof. induction l1 as [|e l1 IH]; simpl; lia. Qed.

Lemma link_delta_endpoints G T cap e :
  link_delta G T cap e e.1.1 + link_delta G T cap e e.1.2 = 0.
Proof. unfold link_delta. repeat case_decide; try done; lia. Qed.

Lemma net_flow_quiet G T cap es c :
  Forall (λ e, touches c e = true → link_flow G T cap e = 0) es →
  net_flow G T cap es c = 0.
Proof.
  induction 1 as [|e es He _ IH]; simpl; [done|]. rewrite IH.
  destruct (touches c e) eqn:Ht.
  - rewrite link_delta_no_flow; auto.
  - by rewrite link_delta_untouched.
Qed.

(** ** How much one settlement can lose *)

Lemma degree_cons e es c :
  degree (e :: es) c = (if touches c e then 1 else 0) + degree es c.
Proof.
  unfold degree. rewrite filter_cons. destruct (touches c e); case_decide; try done.
  simpl length. lia.
Qed.

Lemma degree_nonneg es c : 0 ≤ degree es c.
Proof. unfold degree. lia. Qed.

Lemma link_delta_lower G T cap e c n f :
  0 ≤ cap → nodes G !! c = Some n → food n = Some f →
  - (if touches c e then per_link_loss T cap f else 0) ≤ link_delta G T cap e c.
Proof.
  intros Hcap Hc Hf. destruct (touches c e) eqn:Ht;
    [|rewrite link_delta_untouched by done; lia].
  destruct e as [[a b] l]. unfold link_delta, link_flow, per_link_loss, min3. simpl.
  destruct (nodes G !! a) as [nA|] eqn:HA; [|case_lia].
  destruct (nodes G !! b) as [nB|] eqn:HB; [|case_lia].
  destruct (blocked nA || blocked nB); [case_lia|].
  destruct (food nA) as [fA|] eqn:HfA; [|case_lia].
  destruct (food nB) as [fB|] eqn:HfB; [|case_lia].
  destruct (Z.ltb_spec T fA), (Z.ltb_spec fB T), (Z.ltb_spec T fB), (Z.ltb_spec fA T);
    simpl; repeat case_decide; simplify_eq; lia.
Qed.

Lemma net_flow_lower G T cap es c n f :
  0 ≤ cap → nodes G !! c = Some n → food n = Some f →
  - (degree es c * per_link_loss T cap f) ≤ net_flow G T cap es c.
Proof.
  intros Hcap Hc Hf. induction es as [|e es IH]; simpl.
  - unfold degree. simpl. lia.
  - rewrite degree_cons.
    pose proof (link_delta_lower G T cap e c n f Hcap Hc Hf).
    destruct (touches c e); lia.
Qed.

Lemma food_nonneg_lookup G c n f :
  food_nonneg G = true → nodes G !! c = Some n → food n = Some f → 0 ≤ f.
Proof.
  unfold food_nonneg. intros H%bool_decide_eq_true Hc Hf.
  specialize (H c n Hc). simpl in H. by rewrite Hf in H.
Qed.

(** What a step does to the food of one settlement of a well-formed graph:
    the stock after production and a lower bound on the stock after trade. *)
Lemma economy_step_stock a T cap G :
  graph_wf G = true → food_nonneg G = true → 0 ≤ a → 0 ≤ cap →
  ∃ G1 G2,
    produce_food G a = Some G1 ∧ trade_food G1 T cap = Some G2 ∧
    economy_step a T cap G = Some G2 ∧
    ∀ c, is_Some (nodes G !! c) →
      ∃ fp f', stock G1 c = Some fp ∧ stock G2 c = Some f' ∧ 0 ≤ fp ∧
               fp - degree (edges G) c * per_link_loss T cap fp ≤ f'.
Proof.
  intros Hwf Hnn Ha Hcap.
  destruct (economy_step_total a T cap G Hwf) as (G1 & G2 & H1 & H2 & Hs & Hwf1 & _).
  exists G1, G2. repeat split; try done. intros c [n Hc].
  destruct (produce_food_lookup _ _ _ H1) as [He Hn].
  destruct (Hn c) as [Hl [n1 Hn1]]; [eauto|]. rewrite Hn1, Hc in Hl. simpl in Hl.
  symmetry in Hl. apply produce_one_inv in Hl as [_ Hf1].
  destruct (graph_wf_node_food _ _ _ Hwf Hc) as [f Hf]. rewrite Hf in Hf1. simpl in Hf1.
  pose proof (food_nonneg_lookup _ _ _ _ Hnn Hc Hf) as Hf0.
  destruct (trade_food_stock _ _ _ _ _ _ H2 Hn1) as (fp & n2 & Hfp & Hn2 & Hf2 & _).
  exists fp, (fp + net_flow G1 T cap (edges G1) c).
  split; [by eapply stock_Some|]. split; [by eapply stock_Some|].
  split; [rewrite Hf1 in Hfp; destruct (blocked n); simplify_eq; lia|].
  pose proof (net_flow_lower G1 T cap (edges G1) c n1 fp Hcap Hn1 Hfp) as Hlow.
  rewrite He in *. lia.
Qed.

(** A settlement with at most one trade link never goes negative. *)
Corollary single_link_food_nonneg G a T cap c :
  graph_wf G = true → food_nonneg G = true → 0 ≤ a → 0 ≤ cap → 0 ≤ T →
  is_Some (nodes G !! c) → degree (edges G) c ≤ 1 →
  ∃ G2 f', economy_step a T cap G = Some G2 ∧ stock G2 c = Some f' ∧ 0 ≤ f'.
Proof.
  intros Hwf Hnn Ha Hcap HT Hc Hdeg.
  destruct (economy_step_stock a T cap G Hwf Hnn Ha Hcap)
    as (G1 & G2 & H1 & H2 & Hs & Hall).
  destruct (Hall c Hc) as (fp & f' & ? & ? & ? & Hlow).
  exists G2, f'. repeat split; try done.
  pose proof (degree_nonneg (edges G) c). unfold per_link_loss in Hlow. nia.
Qed.

(** * The properties of the specification *)

(** C1, as the code has it: after a step with a non-negative production
    amount and a non-negative cap, on a graph whose stocks are all
    non-negative, a settlement's food is non-negative whenever the number
    of its trade links times what it can give on one link (its surplus over
    the threshold after production, at most the cap; nothing when it is at
    or below the threshold) does not exceed its stock after production.
    Nothing clamps the update. *)
Theorem step_food_nonneg G a T cap :
  graph_wf G = true → food_nonneg G = true → 0 ≤ a → 0 ≤ cap →
  ∃ G1 G2,
    produce_food G a = Some G1 ∧ trade_food G1 T cap = Some G2 ∧
    economy_step a T cap G = Some G2 ∧
    ∀ c, is_Some (nodes G !! c) →
      ∃ fp f', stock G1 c = Some fp ∧ stock G2 c = Some f' ∧ 0 ≤ fp ∧
               (degree (edges G) c * per_link_loss T cap fp ≤ fp → 0 ≤ f').
Proof.
  intros Hwf Hnn Ha Hcap.
  destruct (economy_step_stock a T cap G Hwf Hnn Ha Hcap)
    as (G1 & G2 & H1 & H2 & Hs & Hall).
  exists G1, G2. repeat split; try done. intros c Hc.
  destruct (Hall c Hc) as (fp & f' & ? & ? & ? & ?).
  exists fp, f'. repeat split; try done. lia.
Qed.

Lemma step_food_nonneg_witness :
  (graph_wf pair_graph = true ∧ food_nonneg pair_graph = true ∧
   0 ≤ 10 ∧ 0 ≤ 20) ∧
  ∃ G1 G2,
    produce_food pair_graph 10 = Some G1 ∧ trade_food G1 100 20 = Some G2 ∧
    economy_step 10 100 20 pair_graph = Some G2 ∧
    ∀ c, is_Some (nodes pair_graph !! c) →
      ∃ fp f', stock G1 c = Some fp ∧ stock G2 c = Some f' ∧ 0 ≤ fp ∧
               (degree (edges pair_graph) c * per_link_loss 100 20 fp ≤ fp → 0 ≤ f').
Proof.
  split; [repeat split; (vm_compute; reflexivity) || lia|].
  apply (step_food_nonneg pair_graph 10 100 20);
    (vm_compute; reflexivity) || lia.
Defined.

(** C1, as the specification states it, fails: the hub of [star_graph]
    holds 110 and its seven neighbours hold nothing; one step with the
    notebook's production 10, threshold 100 and cap 20 takes the hub to
    120 and then sends 20 on each of its seven links. *)
Lemma star_hub_goes_negative :
  graph_wf star_graph = true ∧ food_nonneg star_graph = true ∧ 0 ≤ 10 ∧
  ∃ G', simulate_economy star_graph 1 = Some G' ∧
        economy_step 10 100 20 star_graph = Some G' ∧
        stock G' "Hub" = Some (-20) ∧ food_nonneg G' = false.
Proof.
  split; [vm_compute; reflexivity|]. split; [vm_compute; reflexivity|].
  split; [lia|].
  destruct (economy_step 10 100 20 star_graph) as [G'|] eqn:H;
    [|by vm_compute in H].
  exists G'.
  assert (economy_step 10 100 20 star_graph ≫= (λ G, stock G "Hub") = Some (-20))
    as Hs by (vm_compute; reflexivity).
  assert (food_nonneg <$> economy_step 10 100 20 star_graph = Some false)
    as Hn by (vm_compute; reflexivity).
  unfold simulate_economy. simpl. rewrite H in *. simpl in *.
  repeat split; congruence.
Qed.

(** C2: the result of [trade_food] does not depend on the order in which
    the links are visited.  Whatever the order, the call returns or raises
    alike, and when it returns, every node is the node before the call with
    its net flow added once, each link's contribution being computed from
    the graph as it was when the call started. *)
Theorem trade_order_independent G es' T cap :
  edges G ≡ₚ es' →
  nodes <$> trade_food (set_edges es' G) T cap = nodes <$> trade_food G T cap
  ∧ (∀ G', trade_food G T cap = Some G' →
       ∀ c, nodes G' !! c
            = nodes G !! c ≫= add_food (net_flow G T cap (edges G) c))
  ∧ (graph_wf G = true → is_Some (trade_food G T cap)).
Proof.
  intros Hp. split; [|split].
  - rewrite (trade_food_set_edges G (edges G) es' T cap Hp). by destruct G.
  - intros G' H c. apply trade_food_lookup in H as [_ Hn]. by destruct (Hn c).
  - apply trade_food_total.
Qed.

Lemma trade_order_independent_witness :
  edges siege_graph ≡ₚ [("S", "B", link); ("A", "B", link); ("A", "S", link)] ∧
  nodes <$> trade_food
              (set_edges [("S", "B", link); ("A", "B", link); ("A", "S", link)]
                         siege_graph) 100 20
  = nodes <$> trade_food siege_graph 100 20.
Proof.
  assert (edges siege_graph
          ≡ₚ [("S", "B", link); ("A", "B", link); ("A", "S", link)]) as Hp.
  { simpl. etrans; [apply perm_skip, perm_swap|apply perm_swap]. }
  split; [exact Hp|].
  apply (trade_order_independent siege_graph _ 100 20 Hp).
Defined.

(** C3: after a call to [produce_food] (which returns on every well-formed
    graph, for any production amount and so for every non-negative one) the
    food of every unblocked settlement has increased by exactly
    [production_amount] and the food of every blocked settlement is
    unchanged. *)
Theorem produce_food_effect G a :
  graph_wf G = true →
  ∃ G', produce_food G a = Some G' ∧
    ∀ c n, nodes G !! c = Some n →
      ∃ f n', food n = Some f ∧ nodes G' !! c = Some n' ∧
              blocked n' = blocked n ∧
              food n' = Some (if blocked n then f else f + a).
Proof.
  intros Hwf. destruct (produce_food_total G a (graph_wf_fed G Hwf)) as [G' H].
  exists G'. split; [done|]. intros c n Hc.
  destruct (graph_wf_node_food _ _ _ Hwf Hc) as [f Hf].
  apply produce_food_lookup in H as [_ Hn]. destruct (Hn c) as [Hl Hd].
  destruct Hd as [n' Hn']; [eauto|]. exists f, n'.
  rewrite Hn', Hc in Hl. simpl in Hl. symmetry in Hl.
  apply produce_one_inv in Hl as [(_ & _ & Hb & _) Hfood].
  rewrite Hf in Hfood. done.
Qed.

Lemma produce_food_effect_witness :
  graph_wf siege_graph = true ∧
  ∃ G', produce_food siege_graph 10 = Some G' ∧
    ∀ c n, nodes siege_graph !! c = Some n →
      ∃ f n', food n = Some f ∧ nodes G' !! c = Some n' ∧
              blocked n' = blocked n ∧
              food n' = Some (if blocked n then f else f + 10).
Proof.
  split; [vm_compute; reflexivity|].
  apply (produce_food_effect siege_graph 10). vm_compute; reflexivity.
Defined.

(** C4, as the code has it: for a trade link, [trade_food] conserves the
    food summed over the two endpoints when no other link at either
    endpoint carries a flow (in particular when no other link touches
    them), whatever the position of the two stocks with respect to the
    threshold.  A flow on another link at one of the endpoints changes the
    sum. *)
Theorem link_pair_conserved G T cap l1 l2 a b l :
  graph_wf G = true →
  edges G = (l1 ++ (a, b, l) :: l2)%list →
  Forall (λ e, touches a e = true ∨ touches b e = true → link_flow G T cap e = 0)
         (l1 ++ l2)%list →
  ∃ G' fa fb fa' fb',
    trade_food G T cap = Some G' ∧
    stock G a = Some fa ∧ stock G b = Some fb ∧
    stock G' a = Some fa' ∧ stock G' b = Some fb' ∧
    fa' + fb' = fa + fb.
Proof.
  intros Hwf Hes Hq. destruct (trade_food_total G T cap Hwf) as [G' H].
  assert ((a, b, l) ∈ edges G) as Hin.
  { rewrite Hes. apply elem_of_app. right. apply list_elem_of_here. }
  destruct (graph_wf_edge G _ Hwf Hin) as [[nA HA] [nB HB]]. simpl in *.
  destruct (trade_food_stock _ _ _ _ _ _ H HA) as (fa & nA' & Hfa & HA' & Hfa' & _).
  destruct (trade_food_stock _ _ _ _ _ _ H HB) as (fb & nB' & Hfb & HB' & Hfb' & _).
  exists G', fa, fb, (fa + net_flow G T cap (edges G) a),
         (fb + net_flow G T cap (edges G) b).
  repeat split; try done; try (by eapply stock_Some).
  rewrite Hes, !net_flow_app. simpl.
  apply Forall_app in Hq as [Hq1 Hq2].
  rewrite !(net_flow_quiet G T cap l1), !(net_flow_quiet G T cap l2);
    try (eapply Forall_impl; [eassumption|]; simpl; intros; auto).
  pose proof (link_delta_endpoints G T cap (a, b, l)) as Hd. simpl in Hd. lia.
Qed.

Lemma link_pair_conserved_witness :
  (graph_wf siege_graph = true ∧
   edges siege_graph
   = ([] ++ ("A", "B", link) :: [("A", "S", link); ("S", "B", link)])%list) ∧
  ∃ G' fa fb fa' fb',
    trade_food siege_graph 100 20 = Some G' ∧
    stock siege_graph "A" = Some fa ∧ stock siege_graph "B" = Some fb ∧
    stock G' "A" = Some fa' ∧ stock G' "B" = Some fb' ∧
    fa' + fb' = fa + fb.
Proof.
  split; [split; [vm_compute; reflexivity|reflexivity]|].
  apply (link_pair_conserved siege_graph 100 20 []
           [("A", "S", link); ("S", "B", link)] "A" "B" link).
  - vm_compute; reflexivity.
  - reflexivity.
  - repeat constructor; intros _; vm_compute; reflexivity.
Defined.

(** C4, as the specification states it, fails: with three unblocked
    settlements the sum over the endpoints A and B of the link A-B changes,
    whether the two straddle the threshold (and trade with one another),
    are both below it or both above it; every stock is within the cap of
    the threshold. *)
Lemma link_pair_not_conserved :
  (∃ G', trade_food fork_straddle 100 20 = Some G' ∧
         ("A", "B", link) ∈ edges fork_straddle ∧
         is_blocked fork_straddle "A" = false ∧ is_blocked fork_straddle "B" = false ∧
         stock fork_straddle "A" = Some 110 ∧ stock fork_straddle "B" = Some 90 ∧
         stock G' "A" = Some 90 ∧ stock G' "B" = Some 100 ∧
         90 + 100 ≠ 110 + 90) ∧
  (∃ G', trade_food fork_below 100 20 = Some G' ∧
         ("A", "B", link) ∈ edges fork_below ∧
         is_blocked fork_below "A" = false ∧ is_blocked fork_below "B" = false ∧
         stock fork_below "A" = Some 90 ∧ stock fork_below "B" = Some 90 ∧
         stock G' "A" = Some 90 ∧ stock G' "B" = Some 100 ∧
         90 + 100 ≠ 90 + 90) ∧
  (∃ G', trade_food fork_above 100 20 = Some G' ∧
         ("A", "B", link) ∈ edges fork_above ∧
         is_blocked fork_above "A" = false ∧ is_blocked fork_above "B" = false ∧
         stock fork_above "A" = Some 110 ∧ stock fork_above "B" = Some 110 ∧
         stock G' "A" = Some 100 ∧ stock G' "B" = Some 110 ∧
         100 + 110 ≠ 110 + 110).
Proof.
  split; [|split].
  - destruct (trade_food fork_straddle 100 20) as [G'|] eqn:H;
      [|by vm_compute in H].
    exists G'. split; [done|]. split; [apply list_elem_of_here|].
    assert (trade_food fork_straddle 100 20 ≫= (λ G, stock G "A") = Some 90)
      as HA by (vm_compute; reflexivity).
    assert (trade_food fork_straddle 100 20 ≫= (λ G, stock G "B") = Some 100)
      as HB by (vm_compute; reflexivity).
    rewrite H in HA, HB. simpl in HA, HB.
    repeat split; try done; vm_compute; reflexivity.
  - destruct (trade_food fork_below 100 20) as [G'|] eqn:H;
      [|by vm_compute in H].
    exists G'. split; [done|]. split; [apply list_elem_of_here|].
    assert (trade_food fork_below 100 20 ≫= (λ G, stock G "A") = Some 90)
      as HA by (vm_compute; reflexivity).
    assert (trade_food fork_below 100 20 ≫= (λ G, stock G "B") = Some 100)
      as HB by (vm_compute; reflexivity).
    rewrite H in HA, HB. simpl in HA, HB.
    repeat split; try done; vm_compute; reflexivity.
  - destruct (trade_food fork_above 100 20) as [G'|] eqn:H;
      [|by vm_compute in H].
    exists G'. split; [done|]. split; [apply list_elem_of_here|].
    assert (trade_food fork_above 100 20 ≫= (λ G, stock G "A") = Some 100)
      as HA by (vm_compute; reflexivity).
    assert (trade_food fork_above 100 20 ≫= (λ G, stock G "B") = Some 110)
      as HB by (vm_compute; reflexivity).
    rewrite H in HA, HB. simpl in HA, HB.
    repeat split; try done; vm_compute; reflexivity.
Qed.

(** C5: a blocked settlement is left exactly as it is by [produce_food], by
    [trade_food] and by any number of steps of a run (neither operation
    changes a [blocked] flag, and the graph stays well-formed with the same
    links), and each of its trade links is skipped by the trade loop: the
    link moves nothing and leaves the net-flow accumulator as it is.  This
    holds of any graph in which the settlement is blocked, hence from the
    first call after the flag was set. *)
Theorem blocked_settlement_frozen G c n :
  graph_wf G = true → nodes G !! c = Some n → blocked n = true →
  (∀ a, ∃ G', produce_food G a = Some G' ∧ graph_wf G' = true ∧
              edges G' = edges G ∧ nodes G' !! c = Some n) ∧
  (∀ T cap, ∃ G', trade_food G T cap = Some G' ∧ graph_wf G' = true ∧
                  edges G' = edges G ∧ nodes G' !! c = Some n) ∧
  (∀ steps a T cap, ∃ G', run steps a T cap G = Some G' ∧ graph_wf G' = true ∧
                          edges G' = edges G ∧ nodes G' !! c = Some n) ∧
  (∀ T cap e ff, e ∈ edges G → touches c e = true →
     link_flow G T cap e = 0 ∧ trade_edge G T cap ff e = Some ff).
Proof.
  intros Hwf Hc Hb. split; [|split; [|split]].
  - intros a. destruct (produce_food_total G a (graph_wf_fed G Hwf)) as [G' H].
    exists G'. split; [done|]. split; [by eapply produce_food_wf|].
    split; [by apply produce_food_lookup in H as [-> _]|].
    by eapply produce_food_blocked_node.
  - intros T cap. destruct (trade_food_total G T cap Hwf) as [G' H].
    exists G'. split; [done|]. split; [by eapply trade_food_wf|].
    split; [by apply trade_food_lookup in H as [-> _]|].
    by eapply trade_food_blocked_node.
  - intros steps a T cap. by apply run_blocked_node.
  - intros T cap e ff He Ht.
    assert (is_blocked G e.1.1 = true ∨ is_blocked G e.1.2 = true) as Hbl.
    { unfold touches in Ht. unfold is_blocked.
      apply orb_true_iff in Ht as [<-%bool_decide_eq_true | <-%bool_decide_eq_true];
        rewrite Hc; auto. }
    split.
    + by apply link_flow_blocked.
    + apply trade_edge_blocked; [by apply graph_wf_edge|done].
Qed.

Lemma blocked_settlement_frozen_witness :
  graph_wf siege_graph = true ∧
  nodes siege_graph !! "S" = Some (city 40 true) ∧
  blocked (city 40 true) = true ∧
  (∀ steps a T cap, ∃ G', run steps a T cap siege_graph = Some G' ∧
                          graph_wf G' = true ∧ edges G' = edges siege_graph ∧
                          nodes G' !! "S" = Some (city 40 true)) ∧
  (∀ T cap e ff, e ∈ edges siege_graph → touches "S" e = true →
     link_flow siege_graph T cap e = 0
     ∧ trade_edge siege_graph T cap ff e = Some ff).
Proof.
  split; [vm_compute; reflexivity|].
  split; [vm_compute; reflexivity|].
  split; [reflexivity|].
  apply (blocked_settlement_frozen siege_graph "S" (city 40 true)).
  - vm_compute; reflexivity.
  - vm_compute; reflexivity.
  - reflexivity.
Defined.

(** C6: on a link with both endpoints unblocked, when the food of either
    endpoint equals [trade_threshold], neither strict comparison selects a
    direction: the link moves nothing and the loop body leaves the net-flow
    accumulator unchanged. *)
Theorem at_threshold_no_flow G T cap a b l nA nB fA fB ff :
  nodes G !! a = Some nA → nodes G !! b = Some nB →
  blocked nA = false → blocked nB = false →
  food nA = Some fA → food nB = Some fB →
  fA = T ∨ fB = T →
  link_flow G T cap (a, b, l) = 0 ∧ trade_edge G T cap ff (a, b, l) = Some ff.
Proof.
  intros HA HB HbA HbB HfA HfB Heq.
  unfold link_flow, trade_edge. simpl. rewrite HA, HB. simpl.
  rewrite HbA, HbB, HfA, HfB. simpl.
  assert ((T <? fA) && (fB <? T) = false) as ->.
  { apply andb_false_iff. destruct Heq as [-> | ->]; [left|right]; apply Z.ltb_irrefl. }
  assert ((T <? fB) && (fA <? T) = false) as ->.
  { apply andb_false_iff. destruct Heq as [-> | ->]; [right|left]; apply Z.ltb_irrefl. }
  done.
Qed.

Lemma at_threshold_no_flow_witness :
  (nodes pair_graph_traded !! "A" = Some (city 110 false) ∧
   nodes pair_graph_traded !! "B" = Some (city 100 false) ∧
   (110 = 100 ∨ 100 = 100)) ∧
  link_flow pair_graph_traded 100 20 ("A", "B", link) = 0 ∧
  trade_edge pair_graph_traded 100 20 ∅ ("A", "B", link) = Some ∅.
Proof.
  split; [repeat split; (vm_compute; reflexivity) || (right; reflexivity)|].
  apply (at_threshold_no_flow pair_graph_traded 100 20 "A" "B" link
           (city 110 false) (city 100 false) 110 100 ∅);
    try (vm_compute; reflexivity).
  right. reflexivity.
Defined.

(** C7: the literal scenario.  A holds 130 and B holds 80, linked and
    unblocked, threshold 100 and cap 20: the flow is min(30, 20, 20) = 20,
    A ends at 110 and B at 100. *)
Theorem literal_scenario :
  min3 (130 - 100) (100 - 80) 20 = 20 ∧
  link_flow pair_graph 100 20 ("A", "B", link) = 20 ∧
  trade_food pair_graph 100 20 = Some pair_graph_traded ∧
  stock pair_graph_traded "A" = Some 110 ∧
  stock pair_graph_traded "B" = Some 100.
Proof. repeat split; vm_compute; reflexivity. Qed.

(** C8: when both endpoints of every link are blocked, [trade_food]
    returns the graph it was given. *)
Theorem all_blocked_trade_noop G T cap :
  graph_wf G = true →
  Forall (λ e, is_blocked G e.1.1 = true ∧ is_blocked G e.1.2 = true) (edges G) →
  trade_food G T cap = Some G.
Proof.
  intros Hwf Hall. destruct (trade_food_total G T cap Hwf) as [G' H].
  rewrite H. f_equal. apply trade_food_lookup in H as [He Hn].
  destruct G as [ns es], G' as [ns' es']. simpl in *. subst es'. f_equal.
  apply map_eq. intros c. destruct (Hn c) as [-> _].
  destruct (ns !! c) as [n|] eqn:Hc; simpl; [|done].
  rewrite net_flow_no_flow.
  - apply add_food_0. by eapply (graph_wf_node_food _ _ _ Hwf).
  - eapply Forall_impl; [exact Hall|]. intros e [HA _]. apply link_flow_blocked. auto.
Qed.

Lemma all_blocked_trade_noop_witness :
  graph_wf all_blocked_graph = true ∧
  trade_food all_blocked_graph 100 20 = Some all_blocked_graph.
Proof.
  split; [vm_compute; reflexivity|].
  apply (all_blocked_trade_noop all_blocked_graph 100 20).
  - vm_compute; reflexivity.
  - repeat constructor.
Defined.

(** C9: [trade_food] leaves the total food of the graph unchanged: what a
    link subtracts from one accumulator entry it adds to another, so the
    net flows sum to zero. *)
Theorem trade_conserves_total G T cap :
  graph_wf G = true →
  ∃ G', trade_food G T cap = Some G' ∧
        map_sum (λ c _, net_flow G T cap (edges G) c) (nodes G) = 0 ∧
        total_food G' = total_food G.
Proof.
  intros Hwf. destruct (trade_food_total G T cap Hwf) as [G' H].
  exists G'. split; [done|]. split; [apply net_flow_total|].
  unfold total_food.
  rewrite (map_sum_related _
             (λ c n, default 0 (food n) + net_flow G T cap (edges G) c)
             (nodes G') (nodes G)).
  - rewrite map_sum_plus, net_flow_total. lia.
  - intros c. destruct (nodes G !! c) as [n|] eqn:Hc.
    + destruct (trade_food_stock _ _ _ _ _ _ H Hc) as (f & n' & Hf & -> & Hf' & _).
      by rewrite Hf, Hf'.
    + apply trade_food_lookup in H as [_ Hn]. destruct (Hn c) as [-> _].
      by rewrite Hc.
Qed.

Lemma trade_conserves_total_witness :
  graph_wf star_graph = true ∧
  ∃ G', trade_food star_graph 100 20 = Some G' ∧
        map_sum (λ c _, net_flow star_graph 100 20 (edges star_graph) c)
                (nodes star_graph) = 0 ∧
        total_food G' = total_food star_graph.
Proof.
  split; [vm_compute; reflexivity|].
  apply (trade_conserves_total star_graph 100 20). vm_compute; reflexivity.
Defined.

(** C10: [produce_food] and [trade_food] change nothing but the ["food"]
    entries: the edge list with its [distance] and [capacity] attributes is
    the same, the set of nodes is the same, and every node keeps its
    [pos], [country], [blocked] flag and every other resource entry. *)
Theorem produce_trade_only_food G :
  graph_wf G = true →
  (∀ a, ∃ G', produce_food G a = Some G' ∧ same_frame G G') ∧
  (∀ T cap, ∃ G', trade_food G T cap = Some G' ∧ same_frame G G').
Proof.
  intros Hwf. split.
  - intros a. destruct (produce_food_total G a (graph_wf_fed G Hwf)) as [G' H].
    exists G'. split; [done|]. by eapply produce_food_frame.
  - intros T cap. destruct (trade_food_total G T cap Hwf) as [G' H].
    exists G'. split; [done|]. by eapply trade_food_frame.
Qed.

Lemma produce_trade_only_food_witness :
  graph_wf siege_graph = true ∧
  (∀ a, ∃ G', produce_food siege_graph a = Some G' ∧ same_frame siege_graph G') ∧
  (∀ T cap, ∃ G', trade_food siege_graph T cap = Some G' ∧ same_frame siege_graph G').
Proof.
  split; [vm_compute; reflexivity|].
  apply (produce_trade_only_food siege_graph). vm_compute; reflexivity.
Defined.

(** * Further properties of the notebook *)

(** ** When the two functions raise *)

Lemma produce_food_Some_fed G a :
  is_Some (produce_food G a) →
  ∀ c n, nodes G !! c = Some n → blocked n = false → is_Some (food n).
Proof.
  intros [G' H] c n Hc Hb. apply produce_food_lookup in H as [_ Hn].
  destruct (Hn c) as [Hl [n' Hn']]; [eauto|]. rewrite Hn', Hc in Hl. simpl in Hl.
  unfold produce_one, add_food in Hl. rewrite Hb in Hl.
  destruct (food n); [eauto|done].
Qed.

Lemma produce_food_fed_Some G a :
  (∀ c n, nodes G !! c = Some n → blocked n = false → is_Some (food n)) →
  is_Some (produce_food G a).
Proof.
  intros Hfed. destruct (produce_food G a) eqn:H; [by eexists|].
  apply produce_food_None in H as (c & n & Hc & Hn). unfold produce_one in Hn.
  destruct (blocked n) eqn:Hb; [done|].
  destruct (Hfed c n Hc Hb) as [f Hf]. by rewrite (add_food_Some _ _ _ Hf) in Hn.
Qed.

(** X1: [produce_food] raises [KeyError] exactly when some unblocked node
    has no ["food"] entry; a blocked node without one is never read. *)
Theorem produce_food_returns_iff G a :
  is_Some (produce_food G a)
  ↔ ∀ c n, nodes G !! c = Some n → blocked n = false → is_Some (food n).
Proof. split; [apply produce_food_Some_fed|apply produce_food_fed_Some]. Qed.

(** X2: in a graph whose edges join nodes, [trade_food] raises [KeyError]
    exactly when some node, blocked or not, linked or not, has no
    ["food"] entry: the final loop adds a net flow, be it zero, to every
    node. *)
Theorem trade_food_returns_iff G T cap :
  Forall (λ e, is_Some (nodes G !! e.1.1) ∧ is_Some (nodes G !! e.1.2)) (edges G) →
  is_Some (trade_food G T cap)
  ↔ ∀ c n, nodes G !! c = Some n → is_Some (food n).
Proof.
  intros Hends. rewrite trade_food_is_Some. split.
  - intros [_ Hfed] c n Hc. by eapply all_fed_lookup.
  - intros Hfed. assert (all_fed (nodes G) = true) as Hall.
    { apply bool_decide_eq_true. intros c n Hc. by eapply Hfed. }
    split; [|done]. apply forallb_forall. intros e He%list_elem_of_In.
    rewrite Forall_forall in Hends. destruct (Hends e He) as [[nA HA] [nB HB]].
    unfold edge_ok. rewrite HA, HB.
    rewrite !bool_decide_eq_true_2 by eauto. by rewrite !orb_true_r.
Qed.

Lemma trade_food_returns_iff_witness :
  Forall (λ e, is_Some (nodes all_blocked_graph !! e.1.1)
               ∧ is_Some (nodes all_blocked_graph !! e.1.2))
         (edges all_blocked_graph) ∧
  (is_Some (trade_food all_blocked_graph 100 20)
   ↔ ∀ c n, nodes all_blocked_graph !! c = Some n → is_Some (food n)).
Proof.
  assert (Forall (λ e, is_Some (nodes all_blocked_graph !! e.1.1)
                       ∧ is_Some (nodes all_blocked_graph !! e.1.2))
                 (edges all_blocked_graph)) as H.
  { repeat constructor; vm_compute; eauto. }
  split; [exact H|]. apply (trade_food_returns_iff all_blocked_graph 100 20 H).
Defined.

(** ** When nothing moves *)

Lemma trade_food_no_flow G T cap :
  graph_wf G = true →
  Forall (λ e, link_flow G T cap e = 0) (edges G) →
  trade_food G T cap = Some G.
Proof.
  intros Hwf Hall. destruct (trade_food_total G T cap Hwf) as [G' H].
  rewrite H. f_equal. apply trade_food_lookup in H as [He Hn].
  destruct G as [ns es], G' as [ns' es']. simpl in *. subst es'. f_equal.
  apply map_eq. intros c. destruct (Hn c) as [-> _].
  destruct (ns !! c) as [n|] eqn:Hc; simpl; [|done].
  rewrite net_flow_no_flow by done.
  apply add_food_0. by eapply (graph_wf_node_food _ _ _ Hwf).
Qed.

Lemma link_flow_not_straddling G T cap e :
  ¬ straddles G T e → link_flow G T cap e = 0.
Proof.
  intros Hn. unfold link_flow.
  destruct (nodes G !! e.1.1) as [nA|] eqn:HA; [|done].
  destruct (nodes G !! e.1.2) as [nB|] eqn:HB; [|done].
  destruct (blocked nA) eqn:HbA; [done|]. destruct (blocked nB) eqn:HbB; [done|].
  simpl. destruct (food nA) as [fA|] eqn:HfA; [|done].
  destruct (food nB) as [fB|] eqn:HfB; [|done].
  destruct ((T <? fA) && (fB <? T)) eqn:H1.
  { apply andb_true_iff in H1 as [?%Z.ltb_lt ?%Z.ltb_lt].
    exfalso. apply Hn. exists nA, nB, fA, fB. repeat split; try done. by left. }
  destruct ((T <? fB) && (fA <? T)) eqn:H2; [|done].
  apply andb_true_iff in H2 as [?%Z.ltb_lt ?%Z.ltb_lt].
  exfalso. apply Hn. exists nA, nB, fA, fB. repeat split; try done. by right.
Qed.

Lemma link_flow_cap_0 G T e : link_flow G T 0 e = 0.
Proof.
  unfold link_flow, min3.
  destruct (nodes G !! e.1.1) as [nA|]; [|done].
  destruct (nodes G !! e.1.2) as [nB|]; [|done].
  destruct (blocked nA || blocked nB); [done|].
  destruct (food nA) as [fA|]; [|done]. destruct (food nB) as [fB|]; [|done].
  destruct ((T <? fA) && (fB <? T)) eqn:H1; [lia|].
  destruct ((T <? fB) && (fA <? T)) eqn:H2; lia.
Qed.

(** What one link can add to the accumulator entry of a city. *)
Lemma link_delta_upper G T cap e c n f :
  0 ≤ cap → nodes G !! c = Some n → food n = Some f →
  link_delta G T cap e c ≤ (if touches c e then per_link_gain T cap f else 0).
Proof.
  intros Hcap Hc Hf. destruct (touches c e) eqn:Ht;
    [|rewrite link_delta_untouched by done; lia].
  destruct e as [[a b] l]. unfold link_delta, link_flow, per_link_gain, min3. simpl.
  destruct (nodes G !! a) as [nA|] eqn:HA; [|case_lia].
  destruct (nodes G !! b) as [nB|] eqn:HB; [|case_lia].
  destruct (blocked nA || blocked nB); [case_lia|].
  destruct (food nA) as [fA|] eqn:HfA; [|case_lia].
  destruct (food nB) as [fB|] eqn:HfB; [|case_lia].
  destruct (Z.ltb_spec T fA), (Z.ltb_spec fB T), (Z.ltb_spec T fB), (Z.ltb_spec fA T);
    simpl; repeat case_decide; simplify_eq; lia.
Qed.

Lemma net_flow_upper G T cap es c n f :
  0 ≤ cap → nodes G !! c = Some n → food n = Some f →
  net_flow G T cap es c ≤ degree es c * per_link_gain T cap f.
Proof.
  intros Hcap Hc Hf. induction es as [|e es IH]; simpl.
  - unfold degree. simpl. lia.
  - rewrite degree_cons.
    pose proof (link_delta_upper G T cap e c n f Hcap Hc Hf).
    destruct (touches c e); lia.
Qed.

(** A settlement above the threshold loses on a link that joins it to a
    settlement below, whichever way the link is oriented. *)
Lemma net_flow_donor_negative G T cap es a b l nA nB fA fB :
  0 < cap → (a, b, l) ∈ es ∨ (b, a, l) ∈ es →
  nodes G !! a = Some nA → nodes G !! b = Some nB →
  blocked nA = false → blocked nB = false →
  food nA = Some fA → food nB = Some fB → T < fA → fB < T →
  net_flow G T cap es a < 0.
Proof.
  intros Hcap Hin HA HB HbA HbB HfA HfB H1 H2.
  assert (∀ e, link_delta G T cap e a ≤ 0) as Hle.
  { intros e. pose proof (link_delta_upper G T cap e a nA fA ltac:(lia) HA HfA) as Hu.
    unfold per_link_gain in Hu. destruct (touches a e); lia. }
  assert (a ≠ b) as Hab by (intros ->; simplify_eq; lia).
  assert (link_delta G T cap (a, b, l) a < 0) as Hneg.
  { unfold link_delta, link_flow, min3. simpl. rewrite HA, HB, HbA, HbB, HfA, HfB.
    simpl. destruct (Z.ltb_spec T fA), (Z.ltb_spec fB T); try lia. simpl.
    repeat case_decide; try congruence; lia. }
  assert (∀ es', net_flow G T cap es' a ≤ 0) as Hall.
  { intros es'. induction es' as [|e' es' IH']; simpl; [lia|].
    specialize (Hle e'). lia. }
  induction es as [|e es IH].
  { destruct Hin as [Hin|Hin]; by apply elem_of_nil in Hin. }
  simpl. specialize (Hall es). specialize (Hle e).
  destruct Hin as [[<-|Hin]%elem_of_cons | [<-|Hin]%elem_of_cons].
  - lia.
  - assert (net_flow G T cap es a < 0) by (apply IH; auto). lia.
  - rewrite (link_delta_flip G T cap a b l l a). lia.
  - assert (net_flow G T cap es a < 0) by (apply IH; auto). lia.
Qed.

(** X3: on a well-formed graph [trade_food] returns the graph it was
    given when no link joins an unblocked settlement above the threshold to
    an unblocked settlement below it; with a positive cap, only then; and
    with a cap of zero, always. *)
Theorem trade_noop_iff_no_straddle G T cap :
  graph_wf G = true →
  (Forall (λ e, ¬ straddles G T e) (edges G) → trade_food G T cap = Some G) ∧
  (0 < cap → trade_food G T cap = Some G →
   Forall (λ e, ¬ straddles G T e) (edges G)) ∧
  trade_food G T 0 = Some G.
Proof.
  intros Hwf. split; [|split].
  - intros Hno. apply trade_food_no_flow; [done|].
    eapply Forall_impl; [exact Hno|]. intros e. apply link_flow_not_straddling.
  - intros Hcap H. apply Forall_forall. intros [[a b] l] He Hs.
    destruct Hs as (nA & nB & fA & fB & HA & HB & HbA & HbB & HfA & HfB & Hdir).
    simpl in *.
    destruct Hdir as [[H1 H2]|[H1 H2]].
    + pose proof (net_flow_donor_negative G T cap (edges G) a b l nA nB fA fB
                    Hcap (or_introl He) HA HB HbA HbB HfA HfB H1 H2) as Hneg.
      destruct (trade_food_stock _ _ _ _ _ _ H HA) as (f & n' & Hf & Hn' & Hf' & _).
      simplify_eq. lia.
    + pose proof (net_flow_donor_negative G T cap (edges G) b a l nB nA fB fA
                    Hcap (or_intror He) HB HA HbB HbA HfB HfA H1 H2) as Hneg.
      destruct (trade_food_stock _ _ _ _ _ _ H HB) as (f & n' & Hf & Hn' & Hf' & _).
      simplify_eq. lia.
  - apply trade_food_no_flow; [done|]. apply Forall_forall. intros e _.
    apply link_flow_cap_0.
Qed.

Lemma trade_noop_iff_no_straddle_witness :
  graph_wf pair_graph_traded = true ∧
  trade_food pair_graph_traded 100 20 = Some pair_graph_traded.
Proof.
  split; [vm_compute; reflexivity|].
  assert (graph_wf pair_graph_traded = true) as Hwf by (vm_compute; reflexivity).
  apply (proj1 (trade_noop_iff_no_straddle pair_graph_traded 100 20 Hwf)).
  repeat constructor.
  intros (nA & nB & fA & fB & HA & HB & _ & _ & HfA & HfB & Hdir).
  vm_compute in HA, HB. simplify_eq. vm_compute in HfA, HfB. simplify_eq. lia.
Defined.

(** X4: with a non-negative cap, one call to [trade_food] changes the food
    of a settlement by at most the number of its links times what one link
    can carry (its distance to the threshold, at most the cap); a
    settlement at or below the threshold never loses food and a settlement
    at or above it never gains any. *)
Theorem trade_food_bounds G T cap :
  graph_wf G = true → 0 ≤ cap →
  ∃ G', trade_food G T cap = Some G' ∧
    ∀ c n, nodes G !! c = Some n →
      ∃ f f', food n = Some f ∧ stock G' c = Some f' ∧
        f - degree (edges G) c * per_link_loss T cap f ≤ f' ∧
        f' ≤ f + degree (edges G) c * per_link_gain T cap f ∧
        (f ≤ T → f ≤ f') ∧ (T ≤ f → f' ≤ f).
Proof.
  intros Hwf Hcap. destruct (trade_food_total G T cap Hwf) as [G' H].
  exists G'. split; [done|]. intros c n Hc.
  destruct (trade_food_stock _ _ _ _ _ _ H Hc) as (f & n' & Hf & Hn' & Hf' & _).
  exists f, (f + net_flow G T cap (edges G) c).
  pose proof (net_flow_lower G T cap (edges G) c n f Hcap Hc Hf) as Hlo.
  pose proof (net_flow_upper G T cap (edges G) c n f Hcap Hc Hf) as Hup.
  pose proof (degree_nonneg (edges G) c) as Hd.
  split; [done|]. split; [by eapply stock_Some|].
  unfold per_link_loss, per_link_gain in *.
  repeat split; try lia.
  - intros Hle. rewrite Z.max_r, Z.min_l in Hlo by lia. lia.
  - intros Hle. rewrite Z.max_r, Z.min_l in Hup by lia. lia.
Qed.

Lemma trade_food_bounds_witness :
  (graph_wf star_graph = true ∧ 0 ≤ 20) ∧
  ∃ G', trade_food star_graph 100 20 = Some G' ∧
    ∀ c n, nodes star_graph !! c = Some n →
      ∃ f f', food n = Some f ∧ stock G' c = Some f' ∧
        f - degree (edges star_graph) c * per_link_loss 100 20 f ≤ f' ∧
        f' ≤ f + degree (edges star_graph) c * per_link_gain 100 20 f ∧
        (f ≤ 100 → f ≤ f') ∧ (100 ≤ f → f' ≤ f).
Proof.
  split; [split; [vm_compute; reflexivity|lia]|].
  apply (trade_food_bounds star_graph 100 20); [vm_compute; reflexivity|lia].
Defined.

(** ** Which links matter *)

Lemma graph_wf_set_edges G es :
  graph_wf G = true →
  (∀ e, e ∈ es → is_Some (nodes G !! e.1.1) ∧ is_Some (nodes G !! e.1.2)) →
  graph_wf (set_edges es G) = true.
Proof.
  intros Hwf Hes. unfold graph_wf. simpl. rewrite (graph_wf_fed G Hwf). simpl.
  apply forallb_forall. intros e He%list_elem_of_In. destruct (Hes e He).
  by rewrite !bool_decide_eq_true_2.
Qed.

(** Two edge lists with the same net flows give the same trade. *)
Lemma trade_food_same_net_flow G es es' T cap :
  graph_wf (set_edges es G) = true → graph_wf (set_edges es' G) = true →
  (∀ c, net_flow G T cap es' c = net_flow G T cap es c) →
  nodes <$> trade_food (set_edges es' G) T cap
  = nodes <$> trade_food (set_edges es G) T cap.
Proof.
  intros Hwf Hwf' Hnet.
  destruct (trade_food_total _ T cap Hwf) as [G1 H1].
  destruct (trade_food_total _ T cap Hwf') as [G2 H2].
  rewrite H1, H2. simpl. f_equal. apply map_eq. intros c.
  apply trade_food_lookup in H1 as [_ Hn1]. apply trade_food_lookup in H2 as [_ Hn2].
  destruct (Hn1 c) as [-> _]. destruct (Hn2 c) as [-> _]. simpl.
  f_equal. f_equal. apply Hnet.
Qed.

Lemma set_edges_id G : set_edges (edges G) G = G.
Proof. by destruct G. Qed.

Lemma net_flow_filter G T cap (P : string * string * TradeLink → Prop)
    `{!∀ e, Decision (P e)} es c :
  (∀ e, e ∈ es → ¬ P e → link_flow G T cap e = 0) →
  net_flow G T cap (filter P es) c = net_flow G T cap es c.
Proof.
  induction es as [|e es IH]; intros Hz; [done|].
  rewrite filter_cons. simpl.
  rewrite <- IH by (intros e' He'; apply Hz; by apply list_elem_of_further).
  destruct (decide (P e)); simpl; [done|].
  rewrite link_delta_no_flow; [lia|]. apply Hz; [apply list_elem_of_here|done].
Qed.

(** X5: for [trade_food], blocking settlements is the same as removing
    every link that touches one of them: the call gives the same nodes on
    the graph and on the graph without those links. *)
Theorem blocking_cuts_links G T cap :
  graph_wf G = true →
  nodes <$> trade_food
              (set_edges (filter (λ e, is_blocked G e.1.1 = false
                                       ∧ is_blocked G e.1.2 = false) (edges G)) G)
              T cap
  = nodes <$> trade_food G T cap.
Proof.
  intros Hwf.
  transitivity (nodes <$> trade_food (set_edges (edges G) G) T cap);
    [|by rewrite set_edges_id].
  apply trade_food_same_net_flow.
  - by rewrite set_edges_id.
  - apply graph_wf_set_edges; [done|]. intros e [_ He]%list_elem_of_filter.
    by apply graph_wf_edge.
  - intros c. apply net_flow_filter. intros e _ Hn. apply link_flow_blocked.
    destruct (is_blocked G e.1.1), (is_blocked G e.1.2); auto.
Qed.

Lemma blocking_cuts_links_witness :
  graph_wf siege_graph = true ∧
  nodes <$> trade_food (set_edges [("A", "B", link)] siege_graph) 100 20
  = nodes <$> trade_food siege_graph 100 20.
Proof.
  split; [vm_compute; reflexivity|].
  apply (blocking_cuts_links siege_graph 100 20). vm_compute; reflexivity.
Defined.

Lemma link_delta_flip_link G T cap e c :
  link_delta G T cap (flip_link e) c = link_delta G T cap e c.
Proof. destruct e as [[a b] l]. apply link_delta_flip. Qed.

Lemma net_flow_reoriented G T cap es es' c :
  Forall2 (λ e e', e' = e ∨ e' = flip_link e) es es' →
  net_flow G T cap es' c = net_flow G T cap es c.
Proof.
  induction 1 as [|e e' es es' [-> | ->] _ IH]; simpl; [done| |].
  - by rewrite IH.
  - by rewrite IH, link_delta_flip_link.
Qed.

(** X6: the orientation in which [G.edges()] yields each link does not
    matter: turning any of the links round gives the same nodes after
    [trade_food]. *)
Theorem trade_orientation_independent G es' T cap :
  graph_wf G = true →
  Forall2 (λ e e', e' = e ∨ e' = flip_link e) (edges G) es' →
  nodes <$> trade_food (set_edges es' G) T cap = nodes <$> trade_food G T cap.
Proof.
  intros Hwf Hfl.
  transitivity (nodes <$> trade_food (set_edges (edges G) G) T cap);
    [|by rewrite set_edges_id].
  apply trade_food_same_net_flow.
  - by rewrite set_edges_id.
  - apply graph_wf_set_edges; [done|]. intros e' He'.
    apply list_elem_of_lookup in He' as [i Hi].
    destruct (Forall2_lookup_r _ _ _ _ _ Hfl Hi) as (e & He & Hor).
    apply list_elem_of_lookup_2 in He.
    destruct (graph_wf_edge G e Hwf He). by destruct Hor as [-> | ->].
  - intros c. by apply net_flow_reoriented.
Qed.

Lemma trade_orientation_independent_witness :
  (graph_wf siege_graph = true ∧
   Forall2 (λ e e', e' = e ∨ e' = flip_link e) (edges siege_graph)
           [("B", "A", link); ("A", "S", link); ("B", "S", link)]) ∧
  nodes <$> trade_food
              (set_edges [("B", "A", link); ("A", "S", link); ("B", "S", link)]
                         siege_graph) 100 20
  = nodes <$> trade_food siege_graph 100 20.
Proof.
  assert (Forall2 (λ e e', e' = e ∨ e' = flip_link e) (edges siege_graph)
            [("B", "A", link); ("A", "S", link); ("B", "S", link)]) as Hfl.
  { constructor; [right; reflexivity|].
    constructor; [left; reflexivity|].
    constructor; [right; reflexivity|]. constructor. }
  split; [split; [vm_compute; reflexivity|exact Hfl]|].
  apply (trade_orientation_independent siege_graph _ 100 20); [|exact Hfl].
  vm_compute; reflexivity.
Defined.

(** ** Composing calls *)

Lemma add_food_twice a b n : add_food a n ≫= add_food b = add_food (a + b) n.
Proof.
  destruct (food n) as [f|] eqn:Hf.
  - rewrite !(add_food_Some _ _ _ Hf). simpl. unfold add_food, food. simpl.
    rewrite lookup_insert_eq. simpl. unfold set_resources. simpl.
    by rewrite insert_insert_eq, Z.add_assoc.
  - unfold add_food. by rewrite Hf.
Qed.

Lemma produce_one_twice a b n :
  produce_one a n ≫= produce_one b = produce_one (a + b) n.
Proof.
  unfold produce_one. destruct (blocked n) eqn:Hb; simpl.
  - by rewrite Hb.
  - rewrite <- add_food_twice. destruct (add_food a n) as [n1|] eqn:H1; simpl; [|done].
    apply add_food_inv in H1 as (_ & _ & _ & (_ & _ & -> & _)).
    by rewrite Hb.
Qed.

Lemma graph_eq G G' :
  edges G' = edges G → (∀ c, nodes G' !! c = nodes G !! c) → G' = G.
Proof.
  destruct G, G'. simpl. intros -> Hn. f_equal. by apply map_eq.
Qed.

(** X7: two calls to [produce_food] in a row, with amounts [a] and [b],
    are one call with amount [a + b]; the first raises exactly when the
    single call does. *)
Theorem produce_food_twice G a b :
  produce_food G a ≫= (λ G1, produce_food G1 b) = produce_food G (a + b).
Proof.
  destruct (produce_food G a) as [G1|] eqn:H1; simpl.
  - assert (is_Some (produce_food G (a + b))) as [G3 H3].
    { apply produce_food_fed_Some. eapply produce_food_Some_fed. by rewrite H1. }
    pose proof (produce_food_lookup _ _ _ H1) as [He1 Hn1].
    pose proof (produce_food_lookup _ _ _ H3) as [He3 Hn3].
    assert (is_Some (produce_food G1 b)) as [G2 H2].
    { apply produce_food_fed_Some. intros c n1 Hc Hb.
      destruct (Hn1 c) as [Hl _]. rewrite Hc in Hl.
      destruct (nodes G !! c) as [n|] eqn:Hg; simplify_eq/=.
      symmetry in Hl. unfold produce_one in Hl.
      destruct (blocked n) eqn:Hbn; [simplify_eq; congruence|].
      apply add_food_inv in Hl as (f & _ & -> & _). eauto. }
    rewrite H2, H3. f_equal.
    pose proof (produce_food_lookup _ _ _ H2) as [He2 Hn2].
    apply graph_eq; [congruence|]. intros c.
    destruct (Hn2 c) as [-> _]. destruct (Hn1 c) as [-> _]. destruct (Hn3 c) as [-> _].
    destruct (nodes G !! c) as [n|]; simpl; [|done]. apply produce_one_twice.
  - symmetry. destruct (produce_food G (a + b)) as [G3|] eqn:H3; [|done].
    apply produce_food_None in H1 as (c & n & Hc & Hn).
    unfold produce_one in Hn. destruct (blocked n) eqn:Hb; [done|].
    destruct (produce_food_Some_fed G (a + b) (mk_is_Some _ _ H3) c n Hc Hb) as [f Hf].
    by rewrite (add_food_Some _ _ _ Hf) in Hn.
Qed.

(** X8: a run of [m + n] steps is a run of [m] steps followed by a run of
    [n] steps on its result, as when [simulate_economy] is called twice. *)
Theorem run_app m n a T cap G :
  run (m + n) a T cap G = run m a T cap G ≫= run n a T cap.
Proof.
  revert G. induction m as [|m IH]; intros G; simpl; [done|].
  destruct (economy_step a T cap G) as [G1|]; simpl; [apply IH|done].
Qed.

(** ** Totals *)

Lemma map_sum_scale {A} (k : Z) (f : string → A → Z) (m : gmap string A) :
  map_sum (λ c v, k * f c v) m = k * map_sum f m.
Proof.
  induction m as [|c v m Hc IH] using map_ind.
  - rewrite !map_sum_empty. lia.
  - rewrite !map_sum_insert by done. lia.
Qed.

Lemma produce_food_total_food G a G' :
  produce_food G a = Some G' → all_fed (nodes G) = true →
  total_food G' = total_food G + a * unblocked_count G.
Proof.
  intros H Hfed. unfold total_food, unblocked_count.
  rewrite <- map_sum_scale, <- map_sum_plus.
  apply map_sum_related. intros c.
  apply produce_food_lookup in H as [_ Hn]. destruct (Hn c) as [Hl Hd].
  destruct (nodes G !! c) as [n|] eqn:Hc; simpl in *.
  - destruct Hd as [n' Hn']; [eauto|]. rewrite Hn' in *. symmetry in Hl.
    apply produce_one_inv in Hl as [_ ->].
    destruct (all_fed_lookup _ _ _ Hfed Hc) as [f ->]. simpl.
    destruct (blocked n); lia.
  - by rewrite Hl.
Qed.

Lemma trade_food_total_food G T cap G' :
  trade_food G T cap = Some G' → total_food G' = total_food G.
Proof.
  intros H. unfold total_food.
  rewrite (map_sum_related _
             (λ c n, default 0 (food n) + net_flow G T cap (edges G) c)
             (nodes G') (nodes G)).
  - rewrite map_sum_plus, net_flow_total. lia.
  - intros c. destruct (nodes G !! c) as [n|] eqn:Hc.
    + destruct (trade_food_stock _ _ _ _ _ _ H Hc) as (f & n' & Hf & -> & Hf' & _).
      by rewrite Hf, Hf'.
    + apply trade_food_lookup in H as [_ Hn]. destruct (Hn c) as [-> _].
      by rewrite Hc.
Qed.

Lemma same_frame_unblocked_count G G' :
  same_frame G G' → unblocked_count G' = unblocked_count G.
Proof.
  intros [_ Hn]. apply map_sum_related. intros c. specialize (Hn c).
  destruct (nodes G' !! c), (nodes G !! c); try done.
  destruct Hn as (_ & _ & -> & _). done.
Qed.

(** X9: every step adds to the total food of the graph the production
    amount once for each unblocked settlement, whatever is traded: after a
    run the total has grown by steps x amount x number of unblocked
    settlements. *)
Theorem run_total_food steps a T cap G :
  graph_wf G = true →
  ∃ G', run steps a T cap G = Some G' ∧
        total_food G' = total_food G + Z.of_nat steps * (a * unblocked_count G).
Proof.
  revert G. induction steps as [|k IH]; intros G Hwf.
  - exists G. split; [done|]. lia.
  - destruct (economy_step_total a T cap G Hwf)
      as (G1 & G2 & H1 & H2 & Hs & Hwf1 & Hwf2).
    destruct (IH G2 Hwf2) as (G' & Hr & Ht). exists G'. simpl. rewrite Hs. simpl.
    split; [done|]. rewrite Ht.
    rewrite (trade_food_total_food _ _ _ _ H2).
    rewrite (produce_food_total_food _ _ _ H1 (graph_wf_fed G Hwf)).
    rewrite (same_frame_unblocked_count G1 G2) by (by eapply trade_food_frame).
    rewrite (same_frame_unblocked_count G G1) by (by eapply produce_food_frame).
    lia.
Qed.

Lemma run_total_food_witness :
  graph_wf star_graph = true ∧
  ∃ G', run 3 10 100 20 star_graph = Some G' ∧
        total_food G' = total_food star_graph
                        + Z.of_nat 3 * (10 * unblocked_count star_graph).
Proof.
  split; [vm_compute; reflexivity|].
  apply (run_total_food 3 10 100 20 star_graph). vm_compute; reflexivity.
Defined.

(** ** Runs without trade *)

Lemma only_food_changed_trans n1 n2 n3 :
  only_food_changed n1 n2 → only_food_changed n2 n3 → only_food_changed n1 n3.
Proof.
  intros (? & ? & ? & H12) (? & ? & ? & H23). repeat split; try congruence.
  intros r Hr. by rewrite H23, H12.
Qed.

Lemma produce_food_node G a G' c n :
  produce_food G a = Some G' → nodes G !! c = Some n →
  ∃ n', nodes G' !! c = Some n' ∧ only_food_changed n n' ∧
        food n' = (λ f, if blocked n then f else f + a) <$> food n.
Proof.
  intros [_ Hn]%produce_food_lookup Hc. destruct (Hn c) as [Hl [n' Hn']]; [eauto|].
  rewrite Hn', Hc in Hl. simpl in Hl. symmetry in Hl.
  apply produce_one_inv in Hl as [? ?]. eauto.
Qed.

Lemma produce_food_node_inv G a G' c n' :
  produce_food G a = Some G' → nodes G' !! c = Some n' →
  ∃ n, nodes G !! c = Some n ∧ only_food_changed n n' ∧
       food n' = (λ f, if blocked n then f else f + a) <$> food n.
Proof.
  intros H Hc. pose proof (produce_food_lookup _ _ _ H) as [_ Hn].
  destruct (Hn c) as [Hl _]. rewrite Hc in Hl.
  destruct (nodes G !! c) as [n|] eqn:Hg; [|done].
  destruct (produce_food_node _ _ _ _ _ H Hg) as (n'' & Hn'' & ? & ?).
  simplify_eq. eauto.
Qed.

(** When production takes every unblocked settlement to the threshold or
    above, the trade that follows moves nothing. *)
Lemma economy_step_steady a T cap G :
  graph_wf G = true →
  (∀ c n f, nodes G !! c = Some n → blocked n = false → food n = Some f → T ≤ f + a) →
  ∃ G1, produce_food G a = Some G1 ∧ economy_step a T cap G = Some G1 ∧
        graph_wf G1 = true.
Proof.
  intros Hwf Hok. destruct (produce_food_total G a (graph_wf_fed G Hwf)) as [G1 H1].
  pose proof (produce_food_wf _ _ _ H1 Hwf) as Hwf1.
  exists G1. split; [done|]. split; [|done].
  unfold economy_step. rewrite H1. simpl.
  apply trade_food_no_flow; [done|]. apply Forall_forall. intros e _.
  apply link_flow_not_straddling.
  intros (nA & nB & fA & fB & HA & HB & HbA & HbB & HfA & HfB & Hdir).
  destruct (produce_food_node_inv _ _ _ _ _ H1 HA) as (mA & HmA & (_ & _ & HbmA & _) & HfmA).
  destruct (produce_food_node_inv _ _ _ _ _ H1 HB) as (mB & HmB & (_ & _ & HbmB & _) & HfmB).
  rewrite HbmA in HbA. rewrite HbmB in HbB. rewrite HbA, HfA in HfmA. rewrite HbB, HfB in HfmB.
  destruct (food mA) as [gA|] eqn:HgA; [|done].
  destruct (food mB) as [gB|] eqn:HgB; [|done]. simplify_eq/=.
  pose proof (Hok _ _ _ HmA HbA HgA). pose proof (Hok _ _ _ HmB HbB HgB). lia.
Qed.

Lemma run_steady steps a T cap : ∀ G,
  graph_wf G = true → 0 ≤ a →
  (∀ c n f, nodes G !! c = Some n → blocked n = false → food n = Some f → T ≤ f + a) →
  ∃ G', run steps a T cap G = Some G' ∧ graph_wf G' = true ∧ edges G' = edges G ∧
    ∀ c n, nodes G !! c = Some n →
      ∃ f n', food n = Some f ∧ nodes G' !! c = Some n' ∧ only_food_changed n n' ∧
              food n' = Some (if blocked n then f else f + Z.of_nat steps * a).
Proof.
  induction steps as [|k IH]; intros G Hwf Ha Hok.
  - exists G. repeat split; try done. intros c n Hc.
    destruct (graph_wf_node_food _ _ _ Hwf Hc) as [f Hf]. exists f, n.
    repeat split; try done. rewrite Hf. f_equal. destruct (blocked n); lia.
  - destruct (economy_step_steady a T cap G Hwf Hok) as (G1 & H1 & Hs & Hwf1).
    destruct (IH G1 Hwf1 Ha) as (G' & Hr & Hwf' & He & Hall).
    { intros c n1 f1 Hc Hb Hf.
      destruct (produce_food_node_inv _ _ _ _ _ H1 Hc) as (n & Hn & (_ & _ & Hbn & _) & Hfn).
      rewrite Hbn in Hb. rewrite Hb, Hf in Hfn.
      destruct (food n) as [f|] eqn:Hfood; simplify_eq/=.
      pose proof (Hok _ _ _ Hn Hb Hfood). lia. }
    exists G'. simpl. rewrite Hs. simpl. split; [done|]. split; [done|].
    split; [rewrite He; by apply produce_food_lookup in H1 as [-> _]|].
    intros c n Hc. destruct (graph_wf_node_food _ _ _ Hwf Hc) as [f Hf].
    destruct (produce_food_node _ _ _ _ _ H1 Hc) as (n1 & Hn1 & Hch1 & Hf1).
    destruct (Hall c n1 Hn1) as (f1 & n' & Hf1' & Hn' & Hch' & Hf').
    exists f, n'. split; [done|]. split; [done|].
    split; [by eapply only_food_changed_trans|].
    rewrite Hf' . destruct Hch1 as (_ & _ & -> & _).
    rewrite Hf in Hf1. simpl in Hf1. rewrite Hf1 in Hf1'. simplify_eq.
    f_equal. destruct (blocked n); lia.
Qed.

(** X10: when production takes every unblocked settlement to the
    threshold or above and the production amount is non-negative, no step
    of a run trades anything: after [steps] steps a blocked settlement
    holds what it held and an unblocked one holds steps x amount more. *)
Theorem steady_growth steps a T cap G :
  graph_wf G = true → 0 ≤ a →
  (∀ c n f, nodes G !! c = Some n → blocked n = false → food n = Some f → T ≤ f + a) →
  ∃ G', run steps a T cap G = Some G' ∧ edges G' = edges G ∧
    ∀ c n, nodes G !! c = Some n →
      ∃ f n', food n = Some f ∧ nodes G' !! c = Some n' ∧ only_food_changed n n' ∧
              food n' = Some (if blocked n then f else f + Z.of_nat steps * a).
Proof.
  intros Hwf Ha Hok.
  destruct (run_steady steps a T cap G Hwf Ha Hok) as (G' & ? & _ & ? & ?). eauto.
Qed.

Lemma steady_growth_witness :
  (graph_wf all_blocked_graph = true ∧ 0 ≤ 10) ∧
  ∃ G', run 3 10 80 20 all_blocked_graph = Some G' ∧
    edges G' = edges all_blocked_graph ∧
    ∀ c n, nodes all_blocked_graph !! c = Some n →
      ∃ f n', food n = Some f ∧ nodes G' !! c = Some n' ∧ only_food_changed n n' ∧
              food n' = Some (if blocked n then f else f + Z.of_nat 3 * 10).
Proof.
  split; [split; [vm_compute; reflexivity|lia]|].
  apply (steady_growth 3 10 80 20 all_blocked_graph).
  - vm_compute; reflexivity.
  - lia.
  - intros c n f Hc Hb Hf.
    destruct (decide (c = "F")) as [->|Hne].
    + vm_compute in Hc. simplify_eq. vm_compute in Hf. simplify_eq. lia.
    + exfalso. (* the other three settlements are blocked *)
      assert (is_blocked all_blocked_graph c = false) as Hib
        by (unfold is_blocked; by rewrite Hc).
      assert (c ∈ ["A"; "B"; "S"; "F"]) as Hin.
      { assert (c ∈ dom (nodes all_blocked_graph)) as Hd
          by (apply elem_of_dom; eauto).
        revert Hd. unfold all_blocked_graph. simpl.
        rewrite !dom_insert_L, dom_empty_L. set_solver. }
      repeat (apply elem_of_cons in Hin as [->|Hin]; [by vm_compute in Hib|]);
        try congruence.
      by apply elem_of_nil in Hin.
Defined.

(** ** The graph built from the table of capitals *)

Lemma foldl_add_capital_edges rows : ∀ G,
  edges (foldl add_capital G rows) = edges G.
Proof. induction rows as [|r rows IH]; intros G; simpl; [done|]. by rewrite IH. Qed.

Lemma foldl_add_capital_other rows c : ∀ G,
  c ∉ Capital <$> rows → nodes (foldl add_capital G rows) !! c = nodes G !! c.
Proof.
  induction rows as [|r rows IH]; intros G Hc; simpl; [done|].
  rewrite fmap_cons in Hc. apply not_elem_of_cons in Hc as [Hne Hc].
  rewrite IH by done. simpl. by rewrite lookup_insert_ne.
Qed.

Lemma foldl_add_capital_lookup rows c n : ∀ G,
  nodes (foldl add_capital G rows) !! c = Some n →
  (∃ row, row ∈ rows ∧ Capital row = c ∧ n = capital_node row)
  ∨ nodes G !! c = Some n.
Proof.
  induction rows as [|r rows IH]; intros G H; simpl in *; [auto|].
  destruct (IH _ H) as [(row & Hin & Hc & Hn)|Hl].
  - left. exists row. split; [by apply list_elem_of_further|done].
  - simpl in Hl. destruct (decide (Capital r = c)) as [<-|Hne].
    + rewrite lookup_insert_eq in Hl. left. exists r. split; [apply list_elem_of_here|].
      split; congruence.
    + rewrite lookup_insert_ne in Hl by done. auto.
Qed.

Lemma foldl_add_capital_is_Some rows c : ∀ G,
  c ∈ Capital <$> rows ∨ is_Some (nodes G !! c) →
  is_Some (nodes (foldl add_capital G rows) !! c).
Proof.
  induction rows as [|r rows IH]; intros G H; simpl.
  - destruct H as [H|H]; [by apply elem_of_nil in H|done].
  - apply IH. rewrite fmap_cons in H. simpl.
    destruct (decide (Capital r = c)) as [<-|Hne].
    + right. rewrite lookup_insert_eq. eauto.
    + destruct H as [[?|?]%elem_of_cons|H]; [congruence|auto|].
      right. by rewrite lookup_insert_ne.
Qed.

Lemma add_capitals_node rows c n :
  nodes (add_capitals rows) !! c = Some n →
  ∃ row, row ∈ rows ∧ Capital row = c ∧ n = capital_node row.
Proof.
  intros H. by destruct (foldl_add_capital_lookup _ _ _ _ H) as [?|?].
Qed.

Lemma add_capitals_dom rows c :
  is_Some (nodes (add_capitals rows) !! c) ↔ c ∈ Capital <$> rows.
Proof.
  split.
  - intros [n (row & Hin & <- & _)%add_capitals_node].
    apply list_elem_of_fmap. eauto.
  - intros H. apply foldl_add_capital_is_Some. auto.
Qed.

Lemma add_capitals_NoDup rows row :
  NoDup (Capital <$> rows) → row ∈ rows →
  nodes (add_capitals rows) !! Capital row = Some (capital_node row).
Proof.
  unfold add_capitals. generalize empty_graph.
  induction rows as [|r rows IH]; intros G Hnd Hin; [by apply elem_of_nil in Hin|].
  rewrite fmap_cons in Hnd. apply NoDup_cons in Hnd as [Hr Hnd]. simpl.
  apply elem_of_cons in Hin as [->|Hin].
  - rewrite foldl_add_capital_other by done. simpl. apply lookup_insert_eq.
  - by apply IH.
Qed.

Lemma add_capitals_wf rows : graph_wf (add_capitals rows) = true.
Proof.
  unfold graph_wf.
  replace (edges (add_capitals rows)) with (@nil (string * string * TradeLink))
    by (unfold add_capitals; by rewrite foldl_add_capital_edges).
  simpl. rewrite andb_true_r. apply bool_decide_eq_true. intros c n Hc.
  apply add_capitals_node in Hc as (row & _ & _ & ->). by eexists.
Qed.

Lemma first_occurrences_elem names c :
  c ∈ first_occurrences names ↔ c ∈ names.
Proof.
  induction names as [|x names IH]; simpl; [done|].
  rewrite !elem_of_cons, list_elem_of_filter, IH. split.
  - intros [->|[_ ?]]; auto.
  - intros [->|?]; [auto|]. destruct (decide (c = x)); auto.
Qed.

Lemma first_occurrences_NoDup names : NoDup (first_occurrences names).
Proof.
  induction names as [|x names IH]; simpl; [constructor|].
  apply NoDup_cons. split.
  - rewrite list_elem_of_filter. by intros [? _].
  - by apply NoDup_filter.
Qed.

Section build.
Variable distance_km : Q → Q → Q → Q → Q.

Lemma connect_spec G a b :
  is_Some (nodes G !! a) → is_Some (nodes G !! b) →
  ∃ G', connect distance_km G a b = Some G' ∧ nodes G' = nodes G ∧
        edges G' = (edges G ++ link_between distance_km (nodes G) a b)%list.
Proof.
  intros [nA HA] [nB HB]. unfold connect, link_between. rewrite HA, HB. simpl.
  destruct (pos nA) as [lonA latA], (pos nB) as [lonB latB]. simpl.
  destruct (Qle_bool _ _); eexists; (split; [done|]); (split; [done|]); simpl.
  - done.
  - by rewrite app_nil_r.
Qed.

Lemma connect_row_spec a rest : ∀ G,
  is_Some (nodes G !! a) → (∀ b, b ∈ rest → is_Some (nodes G !! b)) →
  ∃ G', foldl (λ acc b, acc ≫= λ G', connect distance_km G' a b) (Some G) rest
        = Some G' ∧ nodes G' = nodes G ∧
        edges G' = (edges G ++ flat_map (link_between distance_km (nodes G) a) rest)%list.
Proof.
  induction rest as [|b rest IH]; intros G HA Hrest; simpl.
  - exists G. by rewrite app_nil_r.
  - destruct (connect_spec G a b HA) as (G1 & -> & Hn1 & He1).
    { apply Hrest, list_elem_of_here. }
    simpl. destruct (IH G1) as (G' & -> & Hn' & He').
    + by rewrite Hn1.
    + intros b' Hb'. rewrite Hn1. by apply Hrest, list_elem_of_further.
    + exists G'. split; [done|]. split; [congruence|].
      by rewrite He', He1, Hn1, <- app_assoc.
Qed.

Lemma connect_all_spec order : ∀ G,
  (∀ c, c ∈ order → is_Some (nodes G !! c)) →
  ∃ G', connect_all distance_km order G = Some G' ∧ nodes G' = nodes G ∧
        edges G' = (edges G ++ all_links distance_km (nodes G) order)%list.
Proof.
  induction order as [|a rest IH]; intros G Hall; simpl.
  - exists G. by rewrite app_nil_r.
  - destruct (connect_row_spec a rest G) as (G1 & -> & Hn1 & He1).
    { apply Hall, list_elem_of_here. }
    { intros b Hb. by apply Hall, list_elem_of_further. }
    simpl. destruct (IH G1) as (G' & -> & Hn' & He').
    { intros c Hc. rewrite Hn1. by apply Hall, list_elem_of_further. }
    exists G'. split; [done|]. split; [congruence|].
    by rewrite He', He1, Hn1, <- app_assoc.
Qed.

Lemma link_between_elem ns a b e :
  e ∈ link_between distance_km ns a b ↔
  ∃ nA nB, ns !! a = Some nA ∧ ns !! b = Some nB ∧
    (distance_km (pos nA).2 (pos nA).1 (pos nB).2 (pos nB).1 <= DISTANCE_THRESHOLD)%Q ∧
    e = (a, b, {| distance := distance_km (pos nA).2 (pos nA).1 (pos nB).2 (pos nB).1;
                  capacity := 10 |}).
Proof.
  unfold link_between. split.
  - destruct (ns !! a) as [nA|], (ns !! b) as [nB|]; try (by intros ?%elem_of_nil).
    destruct (Qle_bool _ _) eqn:Hle; [|by intros ?%elem_of_nil].
    intros ->%list_elem_of_singleton. exists nA, nB. repeat split; try done.
    by apply Qle_bool_iff.
  - intros (nA & nB & -> & -> & Hle & ->). apply Qle_bool_iff in Hle. rewrite Hle.
    apply list_elem_of_here.
Qed.

Lemma all_links_elem ns order e :
  e ∈ all_links distance_km ns order ↔
  ∃ i j, (i < j)%nat ∧ order !! i = Some e.1.1 ∧ order !! j = Some e.1.2 ∧
         e ∈ link_between distance_km ns e.1.1 e.1.2.
Proof.
  induction order as [|a rest IH]; simpl.
  - split; [by intros ?%elem_of_nil|]. by intros (i & j & _ & ? & _).
  - rewrite elem_of_app, IH. split.
    + intros [Hin|(i & j & Hij & Hi & Hj & Hl)].
      * apply list_elem_of_In, in_flat_map in Hin as (b & Hb%list_elem_of_In & He%list_elem_of_In).
        pose proof He as (nA & nB & _ & _ & _ & ->)%link_between_elem. simpl.
        apply list_elem_of_lookup in Hb as [j Hj].
        exists 0%nat, (S j). repeat split; try done. lia.
      * exists (S i), (S j). repeat split; try done. lia.
    + intros (i & j & Hij & Hi & Hj & Hl). destruct i as [|i].
      * left. simpl in Hi. simplify_eq. destruct j as [|j]; [lia|]. simpl in Hj.
        apply list_elem_of_In, in_flat_map. exists e.1.2.
        split; apply list_elem_of_In; [by eapply list_elem_of_lookup_2|done].
      * right. destruct j as [|j]; [lia|]. exists i, j. repeat split; try done. lia.
Qed.

Lemma all_links_NoDup ns order :
  NoDup order → NoDup (all_links distance_km ns order).*1.
Proof.
  induction order as [|a rest IH]; simpl; [constructor|].
  intros [Ha Hnd]%NoDup_cons. rewrite fmap_app. apply NoDup_app. split; [|split].
  - clear IH Ha. induction rest as [|b rest IH]; simpl; [constructor|].
    apply NoDup_cons in Hnd as [Hb Hnd]. rewrite fmap_app. apply NoDup_app.
    split; [|split; [|by apply IH]].
    + unfold link_between. destruct (ns !! a), (ns !! b); try constructor.
      destruct (Qle_bool _ _); repeat constructor. by intros ?%elem_of_nil.
    + intros p Hp (e & -> & He)%list_elem_of_fmap.
      apply list_elem_of_fmap in Hp as (e0 & Hp & He0).
      apply link_between_elem in He0 as (? & ? & _ & _ & _ & ->). simpl in Hp.
      apply list_elem_of_In, in_flat_map in He as (b' & Hb'%list_elem_of_In & He%list_elem_of_In).
      apply link_between_elem in He as (? & ? & _ & _ & _ & ->). simpl in Hp.
      simplify_eq. done.
  - intros p Hp (e & -> & He)%list_elem_of_fmap.
    apply list_elem_of_fmap in Hp as (e0 & Hp & He0).
    apply list_elem_of_In, in_flat_map in He0 as (b' & _ & He0%list_elem_of_In).
    apply link_between_elem in He0 as (? & ? & _ & _ & _ & ->). simpl in Hp.
    apply all_links_elem in He as (i & j & _ & Hi & _). rewrite Hp in Hi. simpl in Hi.
    apply Ha. by eapply list_elem_of_lookup_2.
  - by apply IH.
Qed.

Lemma build_graph_spec rows :
  ∃ G, build_graph distance_km rows = Some G ∧
       nodes G = nodes (add_capitals rows) ∧
       edges G = all_links distance_km (nodes (add_capitals rows)) (node_order rows).
Proof.
  unfold build_graph.
  destruct (connect_all_spec (node_order rows) (add_capitals rows))
    as (G & HG & Hn & He).
  { intros c Hc. apply (proj2 (add_capitals_dom rows c)).
    apply (proj1 (first_occurrences_elem _ c)). exact Hc. }
  exists G. split; [done|]. split; [done|]. rewrite He.
  unfold add_capitals at 1. by rewrite foldl_add_capital_edges.
Qed.

Lemma build_graph_wf rows G :
  build_graph distance_km rows = Some G → graph_wf G = true.
Proof.
  intros H. destruct (build_graph_spec rows) as (G' & HG & Hn & He).
  rewrite H in HG. simplify_eq. unfold graph_wf. rewrite Hn.
  pose proof (add_capitals_wf rows) as Hwf.
  rewrite (graph_wf_fed _ Hwf). simpl.
  apply forallb_forall. intros e Hin%list_elem_of_In. rewrite He in Hin.
  apply all_links_elem in Hin as (_ & _ & _ & _ & _ & Hl).
  apply link_between_elem in Hl as (nA & nB & HA & HB & _ & ->). simpl.
  rewrite HA, HB. rewrite !bool_decide_eq_true_2; eauto.
Qed.

End build.

(** X11: for any table and any distance function the construction
    returns a well-formed graph whose nodes are exactly the capitals of the
    table, every one unblocked and holding food 100 and nothing else; when
    no capital is listed twice, each row gives the node of its capital. *)
Theorem built_graph_well_formed distance_km rows :
  ∃ G, build_graph distance_km rows = Some G ∧ graph_wf G = true ∧
    (∀ c, is_Some (nodes G !! c) ↔ c ∈ Capital <$> rows) ∧
    (∀ c n, nodes G !! c = Some n →
       blocked n = false ∧ resources n = {["food" := 100]}) ∧
    (NoDup (Capital <$> rows) →
     ∀ row, row ∈ rows → nodes G !! Capital row = Some (capital_node row)).
Proof.
  destruct (build_graph_spec distance_km rows) as (G & HG & Hn & He).
  exists G. split; [done|]. split; [by eapply build_graph_wf|]. rewrite Hn.
  split; [apply add_capitals_dom|]. split.
  - by intros c n (row & _ & _ & ->)%add_capitals_node.
  - intros Hnd row. by apply add_capitals_NoDup.
Qed.

(** X12: the links of the built graph are exactly the pairs of nodes, the
    first listed before the second in the order of the nodes, whose
    distance is at most 3000; each carries that distance and capacity 10. *)
Theorem built_graph_links distance_km rows :
  ∃ G, build_graph distance_km rows = Some G ∧
    ∀ a b l, (a, b, l) ∈ edges G ↔
      ∃ i j nA nB, (i < j)%nat ∧
        node_order rows !! i = Some a ∧ node_order rows !! j = Some b ∧
        nodes G !! a = Some nA ∧ nodes G !! b = Some nB ∧
        (distance_km (pos nA).2 (pos nA).1 (pos nB).2 (pos nB).1 <= 3000)%Q ∧
        l = {| distance := distance_km (pos nA).2 (pos nA).1 (pos nB).2 (pos nB).1;
               capacity := 10 |}.
Proof.
  destruct (build_graph_spec distance_km rows) as (G & HG & Hn & He).
  exists G. split; [done|]. intros a b l. rewrite He, Hn, all_links_elem. simpl.
  split.
  - intros (i & j & Hij & Hi & Hj & Hl).
    apply link_between_elem in Hl as (nA & nB & HA & HB & Hle & Heq).
    exists i, j, nA, nB. repeat split; try done. congruence.
  - intros (i & j & nA & nB & Hij & Hi & Hj & HA & HB & Hle & ->).
    exists i, j. repeat split; try done. apply link_between_elem.
    exists nA, nB. done.
Qed.

(** X13: the built graph is a simple graph: no link joins a node to
    itself, no pair of nodes is linked twice, and no link comes with its
    reverse. *)
Theorem built_graph_simple distance_km rows :
  ∃ G, build_graph distance_km rows = Some G ∧
    NoDup (edges G).*1 ∧
    ∀ a b l, (a, b, l) ∈ edges G → a ≠ b ∧ ∀ l', (b, a, l') ∉ edges G.
Proof.
  destruct (build_graph_spec distance_km rows) as (G & HG & Hn & He).
  pose proof (first_occurrences_NoDup (Capital <$> rows)) as Hnd.
  exists G. split; [done|]. rewrite He. split; [by apply all_links_NoDup|].
  intros a b l (i & j & Hij & Hi & Hj & _)%all_links_elem. simpl in *. split.
  - intros ->. pose proof (NoDup_lookup _ _ _ _ Hnd Hi Hj). lia.
  - intros l' (i' & j' & Hij' & Hi' & Hj' & _)%all_links_elem. simpl in *.
    pose proof (NoDup_lookup _ _ _ _ Hnd Hi Hj').
    pose proof (NoDup_lookup _ _ _ _ Hnd Hj Hi'). lia.
Qed.

(** X14: when the distance function is symmetric, two distinct nodes of
    the built graph are linked, one way or the other, exactly when their
    distance is at most 3000. *)
Theorem built_graph_linked_iff_close distance_km rows :
  (∀ lat1 lon1 lat2 lon2,
     (distance_km lat1 lon1 lat2 lon2 == distance_km lat2 lon2 lat1 lon1)%Q) →
  ∃ G, build_graph distance_km rows = Some G ∧
    ∀ a b nA nB, a ≠ b → nodes G !! a = Some nA → nodes G !! b = Some nB →
      ((∃ l, (a, b, l) ∈ edges G ∨ (b, a, l) ∈ edges G)
       ↔ (distance_km (pos nA).2 (pos nA).1 (pos nB).2 (pos nB).1 <= 3000)%Q).
Proof.
  intros Hsym. destruct (build_graph_spec distance_km rows) as (G & HG & Hn & He).
  exists G. split; [done|]. intros a b nA nB Hab HA HB. rewrite He, Hn in *. split.
  - intros (l & [Hl|Hl]); apply all_links_elem in Hl as (_ & _ & _ & _ & _ & Hl);
      apply link_between_elem in Hl as (mA & mB & HmA & HmB & Hle & _);
      simpl in *; simplify_eq; [done|]. by rewrite Hsym.
  - intros Hle.
    assert (a ∈ node_order rows) as [i Hi]%list_elem_of_lookup.
    { apply first_occurrences_elem, add_capitals_dom. eauto. }
    assert (b ∈ node_order rows) as [j Hj]%list_elem_of_lookup.
    { apply first_occurrences_elem, add_capitals_dom. eauto. }
    destruct (lt_eq_lt_dec i j) as [[Hlt| ->]|Hlt]; [| congruence |].
    + eexists. left. apply all_links_elem. exists i, j. repeat split; try done.
      apply link_between_elem. exists nA, nB. done.
    + eexists. right. apply all_links_elem. exists j, i. repeat split; try done.
      apply link_between_elem. exists nB, nA. repeat split; try done.
      by rewrite Hsym.
Qed.

Lemma built_graph_linked_iff_close_witness :
  (∀ lat1 lon1 lat2 lon2,
     (grid_distance lat1 lon1 lat2 lon2 == grid_distance lat2 lon2 lat1 lon1)%Q) ∧
  ∃ G, build_graph grid_distance four_capitals = Some G ∧
    ∀ a b nA nB, a ≠ b → nodes G !! a = Some nA → nodes G !! b = Some nB →
      ((∃ l, (a, b, l) ∈ edges G ∨ (b, a, l) ∈ edges G)
       ↔ (grid_distance (pos nA).2 (pos nA).1 (pos nB).2 (pos nB).1 <= 3000)%Q).
Proof.
  assert (∀ lat1 lon1 lat2 lon2,
     (grid_distance lat1 lon1 lat2 lon2 == grid_distance lat2 lon2 lat1 lon1)%Q)
    as Hsym.
  { intros. unfold grid_distance.
    rewrite (Qabs_Qminus lat1), (Qabs_Qminus lon1). reflexivity. }
  split; [exact Hsym|].
  apply (built_graph_linked_iff_close grid_distance four_capitals Hsym).
Defined.

(** ** The demonstration *)

Lemma set_blocked_spec G c v n :
  nodes G !! c = Some n →
  ∃ G', set_blocked G c v = Some G' ∧ edges G' = edges G ∧
        nodes G' = <[c := {| pos := pos n; country := country n; blocked := v;
                             resources := resources n |}]> (nodes G).
Proof. intros Hc. unfold set_blocked. rewrite Hc. simpl. eauto. Qed.

Lemma set_blocked_wf G c v G' :
  set_blocked G c v = Some G' → graph_wf G = true → graph_wf G' = true.
Proof.
  unfold set_blocked. destruct (nodes G !! c) as [n|] eqn:Hc; intros H Hwf; simplify_eq/=.
  unfold graph_wf. simpl. apply andb_true_iff. split.
  - apply bool_decide_eq_true. intros c' n' Hc'.
    destruct (decide (c = c')) as [->|Hne].
    + rewrite lookup_insert_eq in Hc'. simplify_eq. unfold food. simpl.
      by apply (graph_wf_node_food _ _ _ Hwf Hc).
    + rewrite lookup_insert_ne in Hc' by done. by eapply graph_wf_node_food.
  - apply forallb_forall. intros e He%list_elem_of_In.
    destruct (graph_wf_edge G e Hwf He) as [HA HB].
    rewrite !bool_decide_eq_true_2; [done| |]; rewrite lookup_insert_is_Some; 
      destruct (decide (c = e.1.2)), (decide (c = e.1.1)); auto.
Qed.

Lemma same_frame_refl G : same_frame G G.
Proof.
  split; [done|]. intros c. destruct (nodes G !! c); [|done].
  apply only_food_changed_refl.
Qed.

Lemma same_frame_trans G1 G2 G3 :
  same_frame G1 G2 → same_frame G2 G3 → same_frame G1 G3.
Proof.
  intros [E12 F12] [E23 F23]. split; [congruence|]. intros c.
  specialize (F12 c). specialize (F23 c).
  destruct (nodes G1 !! c), (nodes G2 !! c), (nodes G3 !! c); try done.
  by eapply only_food_changed_trans.
Qed.

Lemma run_frame steps a T cap : ∀ G G',
  run steps a T cap G = Some G' → same_frame G G'.
Proof.
  induction steps as [|k IH]; intros G G' Hr; simpl in Hr.
  - simplify_eq. apply same_frame_refl.
  - unfold economy_step in Hr.
    destruct (produce_food G a) as [Ga|] eqn:Ha; simplify_eq/=.
    destruct (trade_food Ga T cap) as [Gb|] eqn:Hb; simplify_eq/=.
    eapply same_frame_trans; [by eapply produce_food_frame|].
    eapply same_frame_trans; [by eapply trade_food_frame|]. by apply IH.
Qed.

Lemma same_frame_None G G' c :
  same_frame G G' → nodes G !! c = None → nodes G' !! c = None.
Proof.
  intros [_ H] Hc. specialize (H c). rewrite Hc in H. by destruct (nodes G' !! c).
Qed.

(** A graph whose settlements are all unblocked and hold [f] holds
    [f + 10 x steps] everywhere after [steps] steps, if [f] is at least 90. *)
Lemma run_uniform steps f G :
  graph_wf G = true → 90 ≤ f →
  (∀ c n, nodes G !! c = Some n → blocked n = false ∧ food n = Some f) →
  ∃ G', simulate_economy G steps = Some G' ∧ graph_wf G' = true ∧
        same_frame G G' ∧
        ∀ c n', nodes G' !! c = Some n' →
          blocked n' = false ∧ food n' = Some (f + 10 * Z.of_nat steps).
Proof.
  intros Hwf Hf Hall. unfold simulate_economy.
  destruct (run_steady steps 10 100 20 G Hwf) as (G' & Hr & Hwf' & He' & Hall'); [lia| |].
  { intros c n g Hc _ Hg. destruct (Hall c n Hc) as [_ ?]. simplify_eq. lia. }
  pose proof (run_frame _ _ _ _ _ _ Hr) as Hfr.
  exists G'. repeat split; try done; try apply Hfr.
  - destruct (nodes G !! c) as [n|] eqn:Hc.
    + destruct (Hall' c n Hc) as (? & n1 & _ & Hn1 & (_ & _ & Hb & _) & _).
      destruct (Hall c n Hc) as [? _]. simplify_eq. congruence.
    + rewrite (same_frame_None _ _ _ Hfr Hc) in H. done.
  - destruct (nodes G !! c) as [n|] eqn:Hc.
    + destruct (Hall' c n Hc) as (g & n1 & Hg & Hn1 & _ & Hf1).
      destruct (Hall c n Hc) as [Hb Hf0]. rewrite Hb in Hf1. simplify_eq.
      rewrite Hf1. f_equal. lia.
    + rewrite (same_frame_None _ _ _ Hfr Hc) in H. done.
Qed.

Lemma build_graph_fresh distance_km rows G c n :
  build_graph distance_km rows = Some G → nodes G !! c = Some n →
  blocked n = false ∧ food n = Some 100.
Proof.
  intros HG Hc. destruct (build_graph_spec distance_km rows) as (G' & HG' & Hn & _).
  rewrite HG in HG'. simplify_eq. rewrite Hn in Hc.
  by apply add_capitals_node in Hc as (row & _ & _ & ->).
Qed.

Lemma build_graph_dom distance_km rows G c :
  build_graph distance_km rows = Some G →
  is_Some (nodes G !! c) ↔ c ∈ Capital <$> rows.
Proof.
  intros HG. destruct (build_graph_spec distance_km rows) as (G' & HG' & Hn & _).
  rewrite HG in HG'. simplify_eq. rewrite Hn. apply add_capitals_dom.
Qed.

(** X15: on a freshly built graph [simulate_economy] never trades: after
    any number of steps every capital is unblocked and holds
    100 + 10 x steps, whatever the table and the distances. *)
Theorem fresh_graph_growth distance_km rows steps :
  ∃ G0 G', build_graph distance_km rows = Some G0 ∧
    simulate_economy G0 steps = Some G' ∧ edges G' = edges G0 ∧
    ∀ c, c ∈ Capital <$> rows →
      stock G' c = Some (100 + 10 * Z.of_nat steps) ∧ is_blocked G' c = false.
Proof.
  destruct (build_graph_spec distance_km rows) as (G0 & HG & _).
  pose proof (build_graph_wf _ _ _ HG) as Hwf.
  destruct (run_uniform steps 100 G0 Hwf) as (G' & Hr & _ & Hfr & Hall); [lia| |].
  { intros c n. by apply (build_graph_fresh distance_km rows). }
  exists G0, G'. split; [done|]. split; [done|]. split; [apply Hfr|].
  intros c Hc. apply (build_graph_dom _ _ _ _ HG) in Hc.
  destruct (same_frame_dom _ _ _ Hfr Hc) as [n' Hn'].
  destruct (Hall c n' Hn') as [Hb Hf]. split.
  - by eapply stock_Some.
  - unfold is_blocked. by rewrite Hn'.
Qed.

(** X16: the demonstration on a freshly built graph.  When Berlin is a
    capital of the table, the cell ends with Berlin blocked and holding
    130, its stock after the first three steps, and every other capital
    unblocked and holding 160; when it is not, blocking it raises
    [KeyError]. *)
Theorem demonstration_outcome distance_km rows :
  ∃ G0, build_graph distance_km rows = Some G0 ∧
    ("Berlin" ∈ Capital <$> rows →
     ∃ G3, demonstration G0 = Some G3 ∧ edges G3 = edges G0 ∧
       stock G3 "Berlin" = Some 130 ∧ is_blocked G3 "Berlin" = true ∧
       ∀ c, c ∈ Capital <$> rows → c ≠ "Berlin" →
         stock G3 c = Some 160 ∧ is_blocked G3 c = false) ∧
    ("Berlin" ∉ Capital <$> rows → demonstration G0 = None).
Proof.
  destruct (build_graph_spec distance_km rows) as (G0 & HG & _).
  pose proof (build_graph_wf _ _ _ HG) as Hwf.
  destruct (run_uniform 3 100 G0 Hwf) as (G1 & Hr1 & Hwf1 & Hfr1 & Hall1); [lia| |].
  { intros c n. by apply (build_graph_fresh distance_km rows). }
  exists G0. split; [done|]. unfold demonstration. rewrite Hr1. simpl. split.
  - intros Hin. apply (build_graph_dom _ _ _ _ HG) in Hin.
    destruct (same_frame_dom _ _ _ Hfr1 Hin) as [nb Hnb].
    destruct (Hall1 _ _ Hnb) as [Hbb Hfb].
    destruct (set_blocked_spec G1 "Berlin" true nb Hnb) as (G2 & H2 & He2 & Hn2).
    rewrite H2. simpl.
    pose proof (set_blocked_wf _ _ _ _ H2 Hwf1) as Hwf2.
    destruct (run_steady 3 10 100 20 G2 Hwf2) as (G3 & Hr3 & _ & He3 & Hall3); [lia| |].
    { intros c n f Hc Hb Hf. rewrite Hn2 in Hc.
      destruct (decide ("Berlin" = c)) as [<-|Hne].
      - rewrite lookup_insert_eq in Hc. by simplify_eq.
      - rewrite lookup_insert_ne in Hc by done.
        destruct (Hall1 _ _ Hc) as [_ ?]. simplify_eq. lia. }
    exists G3. split; [done|]. split; [destruct Hfr1; congruence|].
    assert (nodes G2 !! "Berlin"
            = Some {| pos := pos nb; country := country nb; blocked := true;
                      resources := resources nb |}) as Hb2
      by (rewrite Hn2; apply lookup_insert_eq).
    destruct (Hall3 _ _ Hb2) as (f & n3 & Hf & Hn3 & (_ & _ & Hbl3 & _) & Hf3).
    simpl in *. unfold food in Hf. simpl in Hf. unfold food in Hfb. simplify_eq.
    split; [by eapply stock_Some|]. split; [unfold is_blocked; by rewrite Hn3|].
    intros c Hc Hne. apply (build_graph_dom _ _ _ _ HG) in Hc.
    destruct (same_frame_dom _ _ _ Hfr1 Hc) as [n1 Hn1].
    destruct (Hall1 _ _ Hn1) as [Hb1 Hf1].
    assert (nodes G2 !! c = Some n1) as Hc2 by (rewrite Hn2, lookup_insert_ne; done).
    destruct (Hall3 _ _ Hc2) as (f' & n3' & Hf' & Hn3' & (_ & _ & Hbl3' & _) & Hf3').
    rewrite Hb1 in Hf3'. simplify_eq.
    split; [by eapply stock_Some|]. unfold is_blocked. rewrite Hn3'. congruence.
  - intros Hnot. unfold set_blocked.
    destruct (nodes G0 !! "Berlin") as [nb0|] eqn:Hb0.
    + exfalso. apply Hnot. apply (build_graph_dom _ _ _ _ HG). eauto.
    + by rewrite (same_frame_None _ _ _ Hfr1 Hb0).
Qed.

(** ** The printed summary *)

#[local] Instance str_le_total : Total str_le.
Proof. intros a b. apply String.leb_total. Qed.










(** ** The notebook on the first four capitals *)

Example four_capitals_links :
  (λ G, (edges G).*1) <$> build_graph grid_distance four_capitals
  = Some [("Paris", "Berlin"); ("Paris", "Madrid"); ("Paris", "Rome");
          ("Berlin", "Rome"); ("Madrid", "Rome")].
Proof. vm_compute. reflexivity. Qed.

Example four_capitals_first_step :
  (G ← build_graph grid_distance four_capitals;
   snd <$> simulate_economy_print decimal_1f G 1)
  = Some [EmptyString; "After Step 1:"; "  Berlin: food=110.0";
          "  Madrid: food=110.0"; "  Paris: food=110.0"; "  Rome: food=110.0"].
Proof. vm_compute. reflexivity. Qed.

Example four_capitals_demonstration :
  (G ← build_graph grid_distance four_capitals;
   G' ← demonstration G;
   summary decimal_1f G')
  = Some ["  Berlin (BLOCKED): food=130.0"; "  Madrid: food=160.0";
          "  Paris: food=160.0"; "  Rome: food=160.0"].
Proof. vm_compute. reflexivity. Qed.
